(** * YConfParser: a shallow embedding of [src/YConfParser.hpp]

    The header parses an indentation-structured configuration file into a
    dictionary from dotted parameter names to typed values.  This file
    embeds the string helpers, the per-type parsers, [parseLine] and
    [parseFile] as Rocq functions and states the properties of the
    specification against them.

    Conventions of the embedding:
    - [std::string] is [string]; sizes and positions are [nat].  The
      one [size_t] subtraction of the source whose result can be
      negative, in the rewind loop of [parseFile], is computed in [Z]
      modulo [2^64]; the other one, in [parseLine], subtracts the size
      of a suffix of the line from the size of the line
      ([parseLine_padding]).
    - [std::string::npos] results are [None].
    - a [bool] function with an output reference, written only on
      success, is an [option].
    - [fprintf(stderr, ...)] appends a [diag] to a list of diagnostics.
    - [std::stof] is platform code on floating-point numbers: the type
      [float], the constant [0.0f] and the conversion are the fields of
      a [Platform].
    - reading [back()] of an empty [std::vector] is undefined: the value
      read is a parameter [ub] of the loop, and the read is logged. *)

From Stdlib Require Import ZArith Ascii String Sorted.
From stdpp Require Import base option list strings gmap.

(** ** Characters used by the parser *)

Definition dquote : ascii := "034"%char.
Definition tab : ascii := "009"%char.
Definition space : ascii := " "%char.
Definition nul : ascii := "000"%char.

(** ** [std::string] operations *)

Module Str.

Definition size (s : string) : nat := String.length s.

Definition empty (s : string) : bool :=
  match s with EmptyString => true | String _ _ => false end.

(** [s[0]]: for an empty string, [operator[]] at [size()] is the
    terminating NUL character. *)
Definition front (s : string) : ascii :=
  match s with EmptyString => nul | String c _ => c end.

(** [s.back()]: undefined on an empty string, hence an [option]. *)
Fixpoint back (s : string) : option ascii :=
  match s with
  | EmptyString => None
  | String c EmptyString => Some c
  | String _ s' => back s'
  end.

(** [s.substr(pos, count)]: the characters [pos, min(pos+count, size))].
    The source never calls it with [pos > size()] (which would throw). *)
Definition substr (pos count : nat) (s : string) : string :=
  String.substring pos count s.

(** [s.substr(pos)]: from [pos] to the end. *)
Definition substr_from (pos : nat) (s : string) : string :=
  String.substring pos (size s - pos) s.

(** [s.find_first_not_of(c)] *)
Fixpoint find_first_not_of (c : ascii) (s : string) : option nat :=
  match s with
  | EmptyString => None
  | String a s' =>
      if Ascii.eqb a c then S <$> find_first_not_of c s' else Some 0
  end.

(** [s.find_last_not_of(c)] *)
Fixpoint find_last_not_of (c : ascii) (s : string) : option nat :=
  match s with
  | EmptyString => None
  | String a s' =>
      match find_last_not_of c s' with
      | Some n => Some (S n)
      | None => if Ascii.eqb a c then None else Some 0
      end
  end.

(** [s.find(c)] for a character [c] *)
Fixpoint find_char (c : ascii) (s : string) : option nat :=
  match s with
  | EmptyString => None
  | String a s' => if Ascii.eqb a c then Some 0 else S <$> find_char c s'
  end.

(** [s.find(pat)] for a string [pat] *)
Fixpoint find (pat s : string) : option nat :=
  if String.prefix pat s then Some 0
  else match s with
       | EmptyString => None
       | String _ s' => S <$> find pat s'
       end.

(** [n] copies of the character [c] *)
Fixpoint replicate (n : nat) (c : ascii) : string :=
  match n with 0 => EmptyString | S n => String c (replicate n c) end.

End Str.

(** ** [std::vector] used through [back], [push_back] and [pop_back]

    A vector is a list in index order: [back] is the last element. *)

Module Vec.

Definition push_back {A} (x : A) (v : list A) : list A := v ++ [x].

Definition pop_back {A} (v : list A) : list A := removelast v.

(** [v.back() = x] *)
Fixpoint set_back {A} (x : A) (v : list A) : list A :=
  match v with
  | [] => []
  | [_] => [x]
  | y :: v' => y :: set_back x v'
  end.

End Vec.

(** ** The trimming helpers (lines 139-200) *)

Definition trimmLeadingSpaces (w_string : string) : string :=
  if Str.empty w_string then EmptyString
  else match Str.find_first_not_of space w_string with
       | None => EmptyString
       | Some n => Str.substr_from n w_string
       end.

Definition trimmLeadingTabs (w_string : string) : string :=
  if Str.empty w_string then EmptyString
  else match Str.find_first_not_of tab w_string with
       | None => EmptyString
       | Some n => Str.substr_from n w_string
       end.

Definition trimmTrailingSpaces (w_string : string) : string :=
  if Str.empty w_string then EmptyString
  else match Str.find_last_not_of space w_string with
       | None => EmptyString
       | Some n => Str.substr 0 (n + 1) w_string
       end.

Definition trimmWhiteSpaces (w_string : string) : string :=
  trimmTrailingSpaces (trimmLeadingSpaces w_string).

(** ** [std::stoi] (base 10, 32-bit [int])

    [strtol] skips leading white space, reads an optional sign and the
    longest run of decimal digits; [stoi] throws when there is no digit
    or when the value is not an [int]. *)

Definition isspace (c : ascii) : bool :=
  let n := nat_of_ascii c in (n =? 32) || ((9 <=? n) && (n <=? 13)).

Definition digit_val (c : ascii) : option Z :=
  let n := nat_of_ascii c in
  if (48 <=? n) && (n <=? 57) then Some (Z.of_nat (n - 48)) else None.

Fixpoint skip_spaces (s : string) : string :=
  match s with
  | String c s' => if isspace c then skip_spaces s' else s
  | EmptyString => s
  end.

Fixpoint read_digits (acc : Z) (s : string) : Z :=
  match s with
  | String c s' =>
      match digit_val c with
      | Some d => read_digits (10 * acc + d) s'
      | None => acc
      end
  | EmptyString => acc
  end.

Definition starts_with_digit (s : string) : bool :=
  match s with
  | String c _ => bool_decide (is_Some (digit_val c))
  | EmptyString => false
  end.

Definition INT_MIN : Z := - 2 ^ 31.
Definition INT_MAX : Z := 2 ^ 31 - 1.

Definition stoi (str : string) : option Z :=
  let s := skip_spaces str in
  let '(neg, body) :=
    match s with
    | String c s' =>
        if Ascii.eqb c "-" then (true, s')
        else if Ascii.eqb c "+" then (false, s')
        else (false, s)
    | EmptyString => (false, s)
    end in
  if starts_with_digit body then
    let v := read_digits 0 body in
    let v := if neg then (- v)%Z else v in
    if (INT_MIN <=? v)%Z && (v <=? INT_MAX)%Z then Some v else None
  else None.

(** ** The value type (lines 69-111) *)

Inductive type_ := NO_VAL | STRING | BOOLEAN | FLOAT | INTEGER.

Global Instance type__eq_dec : EqDecision type_.
Proof. solve_decision. Defined.

(** Messages written to [stderr]. *)
Inductive diag :=
  | MixingNotAllowed          (* Mixing of TAB(s) and white space(s) is not allowed *)
  | WarningMix                (* Warning: mix of TAB(s) and white space(s) *)
  | InvalidLine (line : string)   (* Invalid    --- followed by the line *)
  | MissingParam              (* Invalid: Missing param *)
  | UnknownType (element : string) (* Unknown type: followed by the element *)
  | ArraySameType.            (* Array entries should have the same type *)

(** ** The platform

    [std::stof] and the type [float] are not code of the parser: the
    embedding takes them from a [Platform]. [stof s] is [None] when
    [std::stof] throws, [float_zero] is [0.0f]. *)
Class Platform := {
  float : Type;
  float_zero : float;
  stof : string -> option float
}.

Section Parser.

Context {platform : Platform}.

Record config_struct := {
  type : type_;
  rawString : string;
  stringVal : list string;
  boolVal : list bool;       (* [uint8_t] holding [true] or [false] *)
  floatVal : list float;
  intVal : list Z
}.

(** The default constructor, lines 71-75. *)
Definition config_default : config_struct :=
  {| type := NO_VAL; rawString := EmptyString; stringVal := [];
     boolVal := []; floatVal := []; intVal := [] |}.

Definition paramValuePair : Type := string * config_struct.

(** *** The per-type parsers (lines 209-302) *)

Definition parseAsString (w_string : string) : option string :=
  if Ascii.eqb (Str.front w_string) dquote then
    if 2 <? Str.size w_string then
      if bool_decide (Str.back w_string = Some dquote) then
        Some (Str.substr 1 (Str.size w_string - 2) w_string)
      else None
    else None
  else None.

Definition parseAsBoolean (w_string : string) : option bool :=
  if bool_decide (Str.find "TRUE" w_string <> None) then Some true
  else if bool_decide (Str.find "FALSE" w_string <> None) then Some false
  else None.

Definition parseAsFloat (w_string : string) : option float :=
  if bool_decide (Str.find "." w_string <> None) then stof w_string
  else None.

Definition parseAsInteger (w_string : string) : option Z :=
  if bool_decide (Str.find "." w_string <> None) then stoi w_string
  else None.

(** *** The value part of [parseLine] (lines 388-515) *)

(** The four scratch vectors [stringVals], [boolVals], [floatVals],
    [intVals]; each starts with one placeholder element. *)
Record vals := {
  stringVals : list string;
  boolVals : list bool;
  floatVals : list float;
  intVals : list Z
}.

Definition vals_init : vals :=
  {| stringVals := [EmptyString]; boolVals := [false];
     floatVals := [float_zero]; intVals := [0%Z] |}.

(** Lines 421-448: the [if]/[else if] chain on one array element.
    [None] is the final [else] (unknown type). *)
Definition parseElement (element : string) (v : vals) : option (type_ * vals) :=
  match parseAsString element with
  | Some x =>
      Some (STRING,
            {| stringVals := Vec.push_back EmptyString (Vec.set_back x (stringVals v));
               boolVals := boolVals v; floatVals := floatVals v; intVals := intVals v |})
  | None =>
  match parseAsBoolean element with
  | Some x =>
      Some (BOOLEAN,
            {| stringVals := stringVals v;
               boolVals := Vec.push_back false (Vec.set_back x (boolVals v));
               floatVals := floatVals v; intVals := intVals v |})
  | None =>
  match parseAsFloat element with
  | Some x =>
      Some (FLOAT,
            {| stringVals := stringVals v; boolVals := boolVals v;
               floatVals := Vec.push_back float_zero (Vec.set_back x (floatVals v));
               intVals := intVals v |})
  | None =>
  match parseAsInteger element with
  | Some x =>
      Some (INTEGER,
            {| stringVals := stringVals v; boolVals := boolVals v;
               floatVals := floatVals v;
               intVals := Vec.push_back 0%Z (Vec.set_back x (intVals v)) |})
  | None => None
  end end end end.

(** The state of the [while(true)] loop of lines 414-471 when it is
    left: [pvPair.second.type], [elementType], the scratch vectors and
    the diagnostics written. *)
Record loop_result := {
  lr_type : type_;
  lr_elementType : type_;
  lr_vals : vals;
  lr_diags : list diag
}.

(** The loop of lines 414-471.  Every iteration that continues
    replaces [elements] by a strictly shorter string, so
    [S (Str.size elements)] iterations are enough ([arrayLoop_total]);
    [None] is only returned when [fuel] runs out. *)
Fixpoint arrayLoop (fuel : nat) (elements : string)
    (ty elementType : type_) (v : vals) : option loop_result :=
  match fuel with
  | 0 => None
  | S fuel =>
      let n := Str.find_char "," elements in
      let element :=
        trimmWhiteSpaces
          (match n with
           | None => elements
           | Some n => Str.substr 0 n elements
           end) in
      match parseElement element v with
      | None =>
          Some {| lr_type := ty; lr_elementType := elementType;
                  lr_vals := v; lr_diags := [UnknownType element] |}
      | Some (elementType, v) =>
          let leave ty ds :=
            Some {| lr_type := ty; lr_elementType := elementType;
                    lr_vals := v; lr_diags := ds |} in
          let next ty :=
            match n with
            | None => leave ty []
            | Some n =>
                if Str.size elements <=? n + 1 then leave ty []
                else arrayLoop fuel
                       (trimmWhiteSpaces (Str.substr_from (n + 1) elements))
                       ty elementType v
            end in
          if bool_decide (ty = NO_VAL) then next elementType
          else if bool_decide (ty <> elementType) then leave ty [ArraySameType]
          else next ty
      end
  end.

(** Lines 473-495: copy the vector selected by [elementType]. *)
Definition copyArray (c : config_struct) (elementType : type_) (v : vals)
    : config_struct :=
  match elementType with
  | NO_VAL => c
  | STRING =>
      {| type := type c; rawString := rawString c;
         stringVal := Vec.pop_back (stringVals v);
         boolVal := boolVal c; floatVal := floatVal c; intVal := intVal c |}
  | BOOLEAN =>
      {| type := type c; rawString := rawString c; stringVal := stringVal c;
         boolVal := Vec.pop_back (boolVals v);
         floatVal := floatVal c; intVal := intVal c |}
  | FLOAT =>
      {| type := type c; rawString := rawString c; stringVal := stringVal c;
         boolVal := boolVal c;
         floatVal := Vec.pop_back (floatVals v); intVal := intVal c |}
  | INTEGER =>
      {| type := type c; rawString := rawString c; stringVal := stringVal c;
         boolVal := boolVal c; floatVal := floatVal c;
         intVal := Vec.pop_back (intVals v) |}
  end.

Definition with_type (c : config_struct) (t : type_) : config_struct :=
  {| type := t; rawString := rawString c; stringVal := stringVal c;
     boolVal := boolVal c; floatVal := floatVal c; intVal := intVal c |}.

(** Lines 386-517: the value classifier.  [valString] is the trimmed
    text after the colon; the result is [pvPair.second] and the
    diagnostics written. *)
Definition classify (valString : string) : config_struct * list diag :=
  let c := {| type := NO_VAL; rawString := valString; stringVal := [];
              boolVal := []; floatVal := []; intVal := [] |} in
  let v := vals_init in
  if Str.empty valString then (c, [])
  else
  match parseAsString valString with
  | Some x =>
      ({| type := STRING; rawString := valString;
          stringVal := Vec.set_back x (stringVals v);
          boolVal := []; floatVal := []; intVal := [] |}, [])
  | None =>
  if Ascii.eqb (Str.front valString) "[" &&
     bool_decide (Str.back valString = Some "]"%char) then
    if Str.size valString <? 3 then (c, [])
    else
      let elements := Str.substr 1 (Str.size valString - 2) valString in
      match arrayLoop (S (Str.size elements)) elements NO_VAL NO_VAL v with
      | None => (c, [])
      | Some r =>
          (copyArray (with_type c (lr_type r)) (lr_elementType r) (lr_vals r),
           lr_diags r)
      end
  else
  match parseAsBoolean valString with
  | Some x =>
      ({| type := BOOLEAN; rawString := valString; stringVal := [];
          boolVal := Vec.set_back x (boolVals v);
          floatVal := []; intVal := [] |}, [])
  | None =>
  match parseAsFloat valString with
  | Some x =>
      ({| type := FLOAT; rawString := valString; stringVal := [];
          boolVal := []; floatVal := Vec.set_back x (floatVals v);
          intVal := [] |}, [])
  | None =>
  match parseAsInteger valString with
  | Some x =>
      ({| type := INTEGER; rawString := valString; stringVal := [];
          boolVal := []; floatVal := [];
          intVal := Vec.set_back x (intVals v) |}, [])
  | None => (c, [])
  end end end end.

(** *** [parseLine] (lines 323-518)

    The result is the returned pair, the value left in [w_padding] and
    the diagnostics written, in order. *)
Definition parseLine (w_line : string) : paramValuePair * nat * list diag :=
  let pvPair := (EmptyString, config_default) in
  if Str.empty w_line then (pvPair, 0, [])
  else
    let trimmed_ := trimmLeadingSpaces w_line in
    let trimmed := trimmLeadingTabs trimmed_ in
    let w_padding := Str.size w_line - Str.size trimmed in
    if Str.empty trimmed then (pvPair, w_padding, [])
    else if Ascii.eqb (Str.front trimmed) space then
      (pvPair, w_padding, [MixingNotAllowed])
    else
      let warn :=
        if negb (Str.size trimmed_ =? Str.size trimmed) &&
           negb (Str.size trimmed_ =? Str.size w_line)
        then [WarningMix] else [] in
      if bool_decide (Str.find_char "#" trimmed = Some 0) then
        (pvPair, w_padding, warn)
      else
        match Str.find_char ":" trimmed with
        | None => (pvPair, w_padding, warn ++ [InvalidLine w_line])
        | Some 0 => (pvPair, w_padding, warn ++ [InvalidLine w_line])
        | Some n =>
            let paramString := trimmWhiteSpaces (Str.substr 0 n trimmed) in
            let valString :=
              if n <? Str.size trimmed
              then trimmWhiteSpaces (Str.substr_from (n + 1) trimmed)
              else EmptyString in
            if Str.empty paramString then
              (pvPair, w_padding, warn ++ [MissingParam])
            else
              let '(c, ds) := classify valString in
              ((paramString, c), w_padding, warn ++ ds)
        end.

(** *** [parseFile] (lines 534-600) *)

(** What the rewind loop does outside the defined behaviour of the
    containers, or outside the range of [size_t]. *)
Inductive fault :=
  | BackOfEmptyPaddingHistory  (* line 573: [paddingHistory.back()], vector empty *)
  | BackOfEmptyParamLengths    (* line 570: [paramLengths.back()], vector empty *)
  | SizeUnderflow.             (* line 570: [size() - paramLengths.back()] wraps *)

(** [a - b] on [size_t] (64 bits). *)
Definition size_t_sub (a b : nat) : Z :=
  ((Z.of_nat a - Z.of_nat b) mod 2 ^ 64)%Z.

(** The vectors [paddingHistory] and [paramLengths] are only used as
    stacks: the head of the list is [back()], [push_back] is cons and
    [pop_back] is [tail]. *)
Record rewound := {
  rw_paddingHistory : list nat;
  rw_paramLengths : list nat;
  rw_fullParamName : string;
  rw_faults : list fault
}.

(** Lines 567-577, the [while] loop.  [ub] is the value a [back()] on
    an empty vector happens to read. *)
Fixpoint rewind (ub : nat) (currentPadding : nat)
    (paddingHistory paramLengths : list nat) (fullParamName : string)
    : rewound :=
  match paddingHistory with
  | [] =>
      {| rw_paddingHistory := paddingHistory; rw_paramLengths := paramLengths;
         rw_fullParamName := fullParamName; rw_faults := [] |}
  | _ :: paddingHistory =>
      let '(len, f1) :=
        match paramLengths with
        | len :: _ => (len, [])
        | [] => (ub, [BackOfEmptyParamLengths])
        end in
      let count := size_t_sub (Str.size fullParamName) len in
      let f2 := if Str.size fullParamName <? len then [SizeUnderflow] else [] in
      let fullParamName :=
        Str.substr 0
          (Z.to_nat (Z.min count (Z.of_nat (Str.size fullParamName))))
          fullParamName in
      let paramLengths := tail paramLengths in
      let '(top, f3) :=
        match paddingHistory with
        | top :: _ => (top, [])
        | [] => (ub, [BackOfEmptyPaddingHistory])
        end in
      if top <? currentPadding then
        {| rw_paddingHistory := paddingHistory; rw_paramLengths := paramLengths;
           rw_fullParamName := fullParamName; rw_faults := f1 ++ f2 ++ f3 |}
      else
        let r := rewind ub currentPadding paddingHistory paramLengths
                   fullParamName in
        {| rw_paddingHistory := rw_paddingHistory r;
           rw_paramLengths := rw_paramLengths r;
           rw_fullParamName := rw_fullParamName r;
           rw_faults := f1 ++ f2 ++ f3 ++ rw_faults r |}
  end.

(** Lines 562-579: the rewind, guarded by [!paddingHistory.empty()] and
    [currentPadding <= paddingHistory.back()]. *)
Definition rewindStack (ub : nat) (currentPadding : nat)
    (paddingHistory paramLengths : list nat) (fullParamName : string)
    : rewound :=
  let keep :=
    {| rw_paddingHistory := paddingHistory; rw_paramLengths := paramLengths;
       rw_fullParamName := fullParamName; rw_faults := [] |} in
  match paddingHistory with
  | top :: _ =>
      if currentPadding <=? top then
        rewind ub currentPadding paddingHistory paramLengths fullParamName
      else keep
  | [] => keep
  end.

(** [config.insert({key, value})]: [insert] of [std::map] and of
    [std::unordered_map] leaves the container unchanged when the key
    is present. *)
Definition config_insert (key : string) (value : config_struct)
    (config : gmap string config_struct) : gmap string config_struct :=
  match config !! key with
  | Some _ => config
  | None => <[key := value]> config
  end.

(** The local variables of [parseFile] that live across iterations,
    with the diagnostics and the faults so far. *)
Record parser_state := {
  config : gmap string config_struct;
  fullParamName : string;
  paramLengths : list nat;
  paddingHistory : list nat;
  diags : list diag;
  faults : list fault
}.

Definition parser_init : parser_state :=
  {| config := ∅; fullParamName := EmptyString; paramLengths := [];
     paddingHistory := []; diags := []; faults := [] |}.

(** Lines 555-589: the body of the [while(getline(file, line))] loop. *)
Definition parseStep (ub : nat) (st : parser_state) (line : string)
    : parser_state :=
  let '(pvPair, currentPadding, ds) := parseLine line in
  if Str.empty pvPair.1 || bool_decide (type pvPair.2 = NO_VAL) then
    (* continue *)
    {| config := config st; fullParamName := fullParamName st;
       paramLengths := paramLengths st; paddingHistory := paddingHistory st;
       diags := diags st ++ ds; faults := faults st |}
  else
    let r := rewindStack ub currentPadding (paddingHistory st)
               (paramLengths st) (fullParamName st) in
    let paddingHistory := currentPadding :: rw_paddingHistory r in
    let paramLengths := (1 + Str.size pvPair.1) :: rw_paramLengths r in
    let fullParamName :=
      rw_fullParamName r +:+
      (if Str.empty (rw_fullParamName r) then pvPair.1
       else "." +:+ pvPair.1) in
    {| config :=
         if bool_decide (type pvPair.2 <> NO_VAL)
         then config_insert fullParamName pvPair.2 (config st)
         else config st;
       fullParamName := fullParamName;
       paramLengths := paramLengths;
       paddingHistory := paddingHistory;
       diags := diags st ++ ds;
       faults := faults st ++ rw_faults r |}.

(** The [while(getline(file, line))] loop over the lines of the file.
    [ub i] is the value an out-of-bounds [back()] reads while line
    number [i] is processed. *)
Fixpoint parseLines (ub : nat -> nat) (i : nat) (st : parser_state)
    (lines : list string) : parser_state :=
  match lines with
  | [] => st
  | line :: lines => parseLines ub (S i) (parseStep (ub i) st line) lines
  end.

Definition parseDocument (ub : nat -> nat) (lines : list string)
    : parser_state :=
  parseLines ub 0 parser_init lines.

(** [parseFile]: [file] is [None] when the file cannot be opened, and
    otherwise the lines [getline] delivers.  A read error ends the
    sequence of lines early; the two messages about the file itself
    (lines 548 and 595) are not part of the model. *)
Definition parseFile (ub : nat -> nat) (w_fileName : string)
    (file : option (list string)) : gmap string config_struct :=
  match file with
  | None => ∅
  | Some lines => config (parseDocument ub lines)
  end.

End Parser.


(** * Properties *)

(** The proofs below compute with [+:+] on strings that start with a
    known character. *)
#[local] Arguments String.append !_ _ / : simpl nomatch.

(** ** Strings *)

Module StrFacts.

Lemma size_append (a b : string) :
  Str.size (a +:+ b) = Str.size a + Str.size b.
Proof. induction a as [|c a IH]; simpl; [done | by rewrite <- IH]. Qed.

Lemma size_replicate n c : Str.size (Str.replicate n c) = n.
Proof. induction n as [|n IH]; simpl; [done | by rewrite IH]. Qed.

Lemma substring_all (s : string) : String.substring 0 (Str.size s) s = s.
Proof. induction s as [|c s IH]; simpl; [done | by rewrite IH]. Qed.

Lemma substring_0_0 (s : string) : String.substring 0 0 s = EmptyString.
Proof. by destruct s. Qed.

Lemma size_substring (pos count : nat) (s : string) :
  Str.size (String.substring pos count s)
  = Nat.min count (Str.size s - pos).
Proof.
  unfold Str.size.
  revert pos count; induction s as [|c s IH]; intros [|pos] [|count];
    cbn -[Nat.min Nat.sub]; rewrite ?IH.
  all: lia.
Qed.

Lemma size_substr pos count s :
  Str.size (Str.substr pos count s) = Nat.min count (Str.size s - pos).
Proof. apply size_substring. Qed.

Lemma size_substr_from pos s :
  Str.size (Str.substr_from pos s) = Str.size s - pos.
Proof. unfold Str.substr_from. rewrite size_substring. lia. Qed.

Lemma substr_from_0 s : Str.substr_from 0 s = s.
Proof.
  unfold Str.substr_from. rewrite Nat.sub_0_r. apply substring_all.
Qed.

(** Keeping a prefix: [(a + s).substr(0, a.size()) = a]. *)
Lemma substr_0_append (a s : string) :
  Str.substr 0 (Str.size a) (a +:+ s) = a.
Proof.
  unfold Str.substr. induction a as [|c a IH]; simpl.
  - apply substring_0_0.
  - by rewrite IH.
Qed.

Lemma substr_0_ge (n : nat) (s : string) :
  Str.size s <= n -> Str.substr 0 n s = s.
Proof.
  unfold Str.substr. revert n; induction s as [|c s IH]; intros [|n] H;
    simpl in *; try done; try lia.
  rewrite IH; [done | lia].
Qed.

(** [find_first_not_of] skips a run of [c] that is followed by another
    character. *)
Lemma find_first_not_of_run (c d : ascii) (n : nat) (s : string) :
  d <> c ->
  Str.find_first_not_of c (Str.replicate n c +:+ String d s) = Some n.
Proof.
  intros Hd. induction n as [|n IH]; simpl.
  - by rewrite (proj2 (Ascii.eqb_neq d c)).
  - by rewrite Ascii.eqb_refl, IH.
Qed.

Lemma substr_from_run (n : nat) (c : ascii) (s : string) :
  Str.substr_from n (Str.replicate n c +:+ s) = s.
Proof.
  induction n as [|n IH]; [apply substr_from_0 | exact IH].
Qed.

Lemma replicate_append_empty n c d s :
  Str.empty (Str.replicate n c +:+ String d s) = false.
Proof. by destruct n. Qed.

End StrFacts.

(** ** Trimming *)

Lemma trimmLeadingSpaces_run (n : nat) (d : ascii) (s : string) :
  d <> space ->
  trimmLeadingSpaces (Str.replicate n space +:+ String d s) = String d s.
Proof.
  intros Hd. unfold trimmLeadingSpaces.
  rewrite StrFacts.find_first_not_of_run by done.
  rewrite StrFacts.substr_from_run. by destruct n.
Qed.

Lemma trimmLeadingTabs_run (n : nat) (d : ascii) (s : string) :
  d <> tab ->
  trimmLeadingTabs (Str.replicate n tab +:+ String d s) = String d s.
Proof.
  intros Hd. unfold trimmLeadingTabs.
  rewrite StrFacts.find_first_not_of_run by done.
  rewrite StrFacts.substr_from_run. by destruct n.
Qed.

Lemma trimmLeadingSpaces_id (d : ascii) (s : string) :
  d <> space -> trimmLeadingSpaces (String d s) = String d s.
Proof. apply (trimmLeadingSpaces_run 0). Qed.

Lemma trimmLeadingTabs_id (d : ascii) (s : string) :
  d <> tab -> trimmLeadingTabs (String d s) = String d s.
Proof. apply (trimmLeadingTabs_run 0). Qed.

Lemma size_trimmLeadingSpaces (s : string) :
  Str.size (trimmLeadingSpaces s) <= Str.size s.
Proof.
  unfold trimmLeadingSpaces. destruct (Str.empty s); [simpl; lia|].
  destruct (Str.find_first_not_of space s); [|simpl; lia].
  rewrite StrFacts.size_substr_from. lia.
Qed.

Lemma size_trimmLeadingTabs (s : string) :
  Str.size (trimmLeadingTabs s) <= Str.size s.
Proof.
  unfold trimmLeadingTabs. destruct (Str.empty s); [simpl; lia|].
  destruct (Str.find_first_not_of tab s); [|simpl; lia].
  rewrite StrFacts.size_substr_from. lia.
Qed.

(** [w_line->size() - trimmed.size()] in [parseLine] does not wrap. *)
Lemma parseLine_padding (w_line : string) :
  Str.size (trimmLeadingTabs (trimmLeadingSpaces w_line)) <= Str.size w_line.
Proof.
  pose proof (size_trimmLeadingTabs (trimmLeadingSpaces w_line)).
  pose proof (size_trimmLeadingSpaces w_line). lia.
Qed.

Lemma size_trimmTrailingSpaces (s : string) :
  Str.size (trimmTrailingSpaces s) <= Str.size s.
Proof.
  unfold trimmTrailingSpaces. destruct (Str.empty s); [simpl; lia|].
  destruct (Str.find_last_not_of space s); [|simpl; lia].
  rewrite StrFacts.size_substr. lia.
Qed.

Lemma size_trimmWhiteSpaces (s : string) :
  Str.size (trimmWhiteSpaces s) <= Str.size s.
Proof.
  unfold trimmWhiteSpaces.
  pose proof (size_trimmTrailingSpaces (trimmLeadingSpaces s)).
  pose proof (size_trimmLeadingSpaces s). lia.
Qed.

(** ** Searching *)

(** [pat] occurs in [s]. *)
Definition contains (pat s : string) : Prop :=
  exists pre post : string, s = pre +:+ pat +:+ post.

Lemma prefix_true_iff (pat s : string) :
  String.prefix pat s = true <-> exists post, s = pat +:+ post.
Proof.
  revert s; induction pat as [|c pat IH]; intros s.
  - split; [intros _; by exists s | by destruct s].
  - destruct s as [|d s]; simpl;
      [split; [done | intros [post H]; discriminate]|].
    destruct (Ascii.ascii_dec c d) as [->|Hne].
    + rewrite IH. split; intros [post H]; exists post; simpl in *; congruence.
    + split; [done | intros [post H]; simpl in *; congruence].
Qed.

Lemma find_unfold (pat s : string) :
  Str.find pat s =
  if String.prefix pat s then Some 0
  else match s with
       | EmptyString => None
       | String _ s' => S <$> Str.find pat s'
       end.
Proof. by destruct s. Qed.

Lemma find_contains (pat s : string) :
  Str.find pat s <> None <-> contains pat s.
Proof.
  split.
  - induction s as [|c s IH]; rewrite find_unfold.
    + destruct (String.prefix pat EmptyString) eqn:Hp; [|congruence].
      intros _. apply prefix_true_iff in Hp as [post Hp].
      by exists EmptyString, post.
    + destruct (String.prefix pat (String c s)) eqn:Hp.
      * intros _. apply prefix_true_iff in Hp as [post Hp].
        by exists EmptyString, post.
      * destruct (Str.find pat s); simpl; [|congruence].
        intros _. destruct IH as (pre & post & ->); [done|].
        by exists (String c pre), post.
  - intros (pre & post & ->). induction pre as [|c pre IH].
    + assert (String.prefix pat (pat +:+ post) = true) as Hp
        by (apply prefix_true_iff; by exists post).
      change (EmptyString +:+ pat +:+ post) with (pat +:+ post).
      rewrite find_unfold. by rewrite Hp.
    + change (String c pre +:+ pat +:+ post)
        with (String c (pre +:+ pat +:+ post)).
      rewrite find_unfold.
      destruct (String.prefix pat (String c (pre +:+ pat +:+ post))); [done|].
      by destruct (Str.find pat (pre +:+ pat +:+ post)).
Qed.

Lemma find_None_not_contains (pat s : string) :
  Str.find pat s = None <-> ~ contains pat s.
Proof.
  rewrite <- find_contains. split; [congruence|].
  intros H. destruct (Str.find pat s); [|done]. by destruct H.
Qed.

Lemma back_snoc (s : string) (c : ascii) :
  Str.back (s +:+ String c EmptyString) = Some c.
Proof.
  induction s as [|d s IH]; [done|].
  simpl. rewrite IH. by destruct s.
Qed.

Lemma back_Some_snoc (s : string) (c : ascii) :
  Str.back s = Some c -> exists s', s = s' +:+ String c EmptyString.
Proof.
  induction s as [|d s IH]; [done|].
  destruct s as [|e s].
  - intros [= ->]. by exists EmptyString.
  - intros H. destruct (IH H) as [s' ->]. by exists (String d s').
Qed.

(** ** The value classifier *)

(** [body] between two double quotes. *)
Definition quoted (body : string) : string :=
  String dquote (body +:+ String dquote EmptyString).

(** The shape of rule 2: longer than two characters, first and last
    character a double quote. *)
Definition quote_wrapped (tok : string) : Prop :=
  2 < Str.size tok /\ Str.front tok = dquote /\ Str.back tok = Some dquote.

(** The shape of rule 3: first character '[', last character ']'. *)
Definition bracket_wrapped (tok : string) : Prop :=
  Str.front tok = "["%char /\ Str.back tok = Some "]"%char.

Section Classifier.

Context {platform : Platform}.

Definition string_value (raw x : string) : config_struct :=
  {| type := STRING; rawString := raw; stringVal := [x];
     boolVal := []; floatVal := []; intVal := [] |}.

Definition boolean_value (raw : string) (x : bool) : config_struct :=
  {| type := BOOLEAN; rawString := raw; stringVal := [];
     boolVal := [x]; floatVal := []; intVal := [] |}.

Definition no_value (raw : string) : config_struct :=
  {| type := NO_VAL; rawString := raw; stringVal := [];
     boolVal := []; floatVal := []; intVal := [] |}.

Lemma quote_wrapped_quoted (tok : string) :
  quote_wrapped tok <-> exists body, body <> EmptyString /\ tok = quoted body.
Proof.
  split.
  - intros (Hsize & Hfront & Hback).
    destruct tok as [|c tok]; [simpl in Hsize; lia|].
    simpl in Hfront. subst c.
    destruct tok as [|c tok]; [simpl in Hsize; lia|].
    assert (Str.back (String c tok) = Some dquote) as Hb by exact Hback.
    apply back_Some_snoc in Hb as [body Hb].
    exists body. split; [|unfold quoted; by rewrite Hb].
    intros ->. simpl in Hb. injection Hb as -> ->. simpl in Hsize. lia.
  - intros (body & Hne & ->). unfold quote_wrapped, quoted. repeat split.
    + simpl. rewrite StrFacts.size_append. simpl.
      destruct body; [done | simpl; lia].
    + pose proof (back_snoc body dquote) as Hb. simpl.
      rewrite Hb. by destruct (body +:+ String dquote EmptyString).
Qed.

Lemma parseAsString_quoted (body : string) :
  body <> EmptyString -> parseAsString (quoted body) = Some body.
Proof.
  intros Hne. unfold parseAsString, quoted.
  cbn [Str.front]. rewrite Ascii.eqb_refl.
  assert (Str.size (String dquote (body +:+ String dquote EmptyString))
          = S (S (Str.size body))) as Hsz.
  { simpl. rewrite StrFacts.size_append. simpl. lia. }
  rewrite Hsz.
  assert ((2 <? S (S (Str.size body))) = true) as ->.
  { apply Nat.ltb_lt. destruct body; [done | simpl; lia]. }
  rewrite bool_decide_true.
  2:{ pose proof (back_snoc body dquote) as Hb. simpl.
      rewrite Hb. by destruct (body +:+ String dquote EmptyString). }
  f_equal. replace (S (S (Str.size body)) - 2) with (Str.size body) by lia.
  unfold Str.substr. simpl. destruct (Str.size body) eqn:Hs.
  - destruct body; [done | discriminate].
  - rewrite <- Hs. apply StrFacts.substr_0_append.
Qed.

Lemma parseAsString_Some (tok v : string) :
  parseAsString tok = Some v -> quote_wrapped tok.
Proof.
  unfold parseAsString, quote_wrapped.
  destruct (Ascii.eqb (Str.front tok) dquote) eqn:Hf; [|done].
  destruct (2 <? Str.size tok) eqn:Hs; [|done].
  case_bool_decide as Hb; [|done].
  intros _. apply Ascii.eqb_eq in Hf. apply Nat.ltb_lt in Hs. done.
Qed.

Lemma parseAsString_None (tok : string) :
  ~ quote_wrapped tok -> parseAsString tok = None.
Proof.
  intros H. destruct (parseAsString tok) eqn:E; [|done].
  destruct H. by eapply parseAsString_Some.
Qed.

(** C8.  A token longer than two characters whose first and last
    characters are double quotes is classified as the string between
    these two quotes, character for character; and [parseAsString]
    accepts no token of another shape. *)
Theorem classify_quoted (tok : string) :
  (2 < Str.size tok -> Str.front tok = dquote ->
   Str.back tok = Some dquote ->
   exists body, tok = quoted body /\
                classify tok = (string_value tok body, []))
  /\ (~ quote_wrapped tok -> parseAsString tok = None).
Proof.
  split; [|apply parseAsString_None].
  intros Hs Hf Hb.
  destruct (proj1 (quote_wrapped_quoted tok)) as (body & Hne & ->); [done|].
  exists body. split; [done|].
  unfold classify. rewrite parseAsString_quoted by done.
  done.
Qed.

(** C9.  A non-empty token that is neither quote-wrapped nor
    bracket-wrapped is classified Boolean true when TRUE occurs in it,
    and Boolean false when TRUE does not occur in it and FALSE does. *)
Theorem classify_boolean (tok : string) :
  tok <> EmptyString -> ~ quote_wrapped tok -> ~ bracket_wrapped tok ->
  (contains "TRUE" tok -> classify tok = (boolean_value tok true, []))
  /\ (~ contains "TRUE" tok -> contains "FALSE" tok ->
      classify tok = (boolean_value tok false, [])).
Proof.
  intros Hne Hq Hbr.
  assert (Str.empty tok = false) as He by (by destruct tok).
  assert (Ascii.eqb (Str.front tok) "[" &&
          bool_decide (Str.back tok = Some "]"%char) = false) as Hb.
  { apply not_true_is_false. intros H. apply andb_prop in H as [H1 H2].
    apply Hbr. split; [by apply Ascii.eqb_eq | exact (bool_decide_eq_true_1 _ H2)]. }
  unfold classify. rewrite He, parseAsString_None, Hb by done.
  unfold parseAsBoolean. split.
  - intros Ht. by rewrite bool_decide_true by (by apply find_contains).
  - intros Ht Hf.
    rewrite bool_decide_false by (by rewrite find_contains).
    by rewrite bool_decide_true by (by apply find_contains).
Qed.

Definition float_value (raw : string) (x : float) : config_struct :=
  {| type := FLOAT; rawString := raw; stringVal := [];
     boolVal := []; floatVal := [x]; intVal := [] |}.

(** Rule 5: a token with a '.' that reaches the numeric rules is a
    float whenever [std::stof] converts it. *)
Lemma classify_float (tok : string) (x : float) :
  tok <> EmptyString -> ~ quote_wrapped tok -> ~ bracket_wrapped tok ->
  ~ contains "TRUE" tok -> ~ contains "FALSE" tok ->
  contains "." tok -> stof tok = Some x ->
  classify tok = (float_value tok x, []).
Proof.
  intros Hne Hq Hbr Ht Hf Hp Hx.
  assert (Str.empty tok = false) as He by (by destruct tok).
  assert (Ascii.eqb (Str.front tok) "[" &&
          bool_decide (Str.back tok = Some "]"%char) = false) as Hb.
  { apply not_true_is_false. intros H. apply andb_prop in H as [H1 H2].
    apply Hbr. split; [by apply Ascii.eqb_eq | exact (bool_decide_eq_true_1 _ H2)]. }
  unfold classify. rewrite He, parseAsString_None, Hb by done.
  unfold parseAsBoolean, parseAsFloat.
  rewrite !bool_decide_false by (by rewrite find_contains).
  rewrite bool_decide_true by (by apply find_contains).
  by rewrite Hx.
Qed.

(** The guard of [parseAsInteger]: without a '.' in the token,
    [std::stoi] is not called. *)
Lemma parseAsInteger_without_point (tok : string) :
  ~ contains "." tok -> parseAsInteger tok = None.
Proof.
  intros Hp. unfold parseAsInteger.
  by rewrite bool_decide_false by (by rewrite find_contains).
Qed.

(** Hence a scalar token without a '.' is never an integer. *)
Lemma classify_without_point (tok : string) :
  ~ contains "." tok -> ~ bracket_wrapped tok ->
  type (classify tok).1 <> INTEGER.
Proof.
  intros Hp Hbr. unfold classify.
  destruct (Str.empty tok); [done|].
  destruct (parseAsString tok); [done|].
  assert (Ascii.eqb (Str.front tok) "[" &&
          bool_decide (Str.back tok = Some "]"%char) = false) as ->.
  { apply not_true_is_false. intros H. apply andb_prop in H as [H1 H2].
    apply Hbr. split; [by apply Ascii.eqb_eq | exact (bool_decide_eq_true_1 _ H2)]. }
  destruct (parseAsBoolean tok); [done|].
  destruct (parseAsFloat tok); [done|].
  by rewrite parseAsInteger_without_point.
Qed.

End Classifier.

(** The array loop always leaves with a result: the fuel given by
    [classify] is never exhausted. *)
Section ArrayLoop.

Context {platform : Platform}.

Lemma arrayLoop_total (fuel : nat) (elements : string) (ty elementType : type_)
    (v : vals) :
  Str.size elements < fuel ->
  is_Some (arrayLoop fuel elements ty elementType v).
Proof.
  revert elements ty elementType v.
  induction fuel as [|fuel IH]; intros elements ty elementType v Hfuel;
    [lia|].
  cbn [arrayLoop].
  destruct (parseElement _ _) as [[elementType' v']|]; [|done].
  assert (forall ty', is_Some
    match Str.find_char "," elements with
    | None =>
        Some {| lr_type := ty'; lr_elementType := elementType';
                lr_vals := v'; lr_diags := [] |}
    | Some n =>
        if Str.size elements <=? n + 1
        then Some {| lr_type := ty'; lr_elementType := elementType';
                     lr_vals := v'; lr_diags := [] |}
        else arrayLoop fuel
               (trimmWhiteSpaces (Str.substr_from (n + 1) elements))
               ty' elementType' v'
    end) as Hnext.
  { intros ty'. destruct (Str.find_char "," elements) as [n|]; [|done].
    destruct (Str.size elements <=? n + 1) eqn:Hn; [done|].
    apply Nat.leb_gt in Hn. apply IH.
    pose proof (size_trimmWhiteSpaces (Str.substr_from (n + 1) elements)).
    rewrite StrFacts.size_substr_from in *. lia. }
  repeat case_bool_decide; auto.
Qed.

Lemma classify_array_fuel (elements : string) (ty elementType : type_)
    (v : vals) :
  is_Some (arrayLoop (S (Str.size elements)) elements
             ty elementType v).
Proof. apply arrayLoop_total. lia. Qed.

(** When the loop is left on a type mismatch, [elementType] is not the
    type of the value. *)
Lemma arrayLoop_mismatch (fuel : nat) (elements : string)
    (ty elementType : type_) (v : vals) (r : loop_result) :
  arrayLoop fuel elements ty elementType v = Some r ->
  lr_diags r = [ArraySameType] ->
  lr_type r <> NO_VAL /\ lr_type r <> lr_elementType r.
Proof.
  revert elements ty elementType v.
  induction fuel as [|fuel IH]; intros elements ty elementType v; [done|].
  cbn [arrayLoop].
  destruct (parseElement _ _) as [[elementType' v']|];
    [|by intros [= <-]].
  assert (forall ty',
    match Str.find_char "," elements with
    | None =>
        Some {| lr_type := ty'; lr_elementType := elementType';
                lr_vals := v'; lr_diags := [] |}
    | Some n =>
        if Str.size elements <=? n + 1
        then Some {| lr_type := ty'; lr_elementType := elementType';
                     lr_vals := v'; lr_diags := [] |}
        else arrayLoop fuel
               (trimmWhiteSpaces (Str.substr_from (n + 1) elements))
               ty' elementType' v'
    end = Some r ->
    lr_diags r = [ArraySameType] ->
    lr_type r <> NO_VAL /\ lr_type r <> lr_elementType r) as Hnext.
  { intros ty'. destruct (Str.find_char "," elements) as [n|];
      [|by intros [= <-]].
    destruct (Str.size elements <=? n + 1); [by intros [= <-]|].
    apply IH. }
  case_bool_decide as Hty; [apply Hnext|].
  case_bool_decide as Hne; [|apply Hnext].
  by intros [= <-] _.
Qed.

(** The elements a reader of the value finds: the vector of its type
    (as [printConfiguration] selects it, lines 608-660). *)
Definition elements_count (c : config_struct) : nat :=
  match type c with
  | NO_VAL => 0
  | STRING => length (stringVal c)
  | BOOLEAN => length (boolVal c)
  | FLOAT => length (floatVal c)
  | INTEGER => length (intVal c)
  end.

(** Hence every array value that ends on a type mismatch has a type and
    no element of this type: what was accumulated before the mismatch
    is not copied. *)
Lemma classify_mismatch_empty (valString : string) :
  (classify valString).2 = [ArraySameType] ->
  type (classify valString).1 <> NO_VAL /\
  elements_count (classify valString).1 = 0.
Proof.
  unfold classify.
  destruct (Str.empty valString); [done|].
  destruct (parseAsString valString); [done|].
  destruct (_ && _).
  - destruct (Str.size valString <? 3); [done|].
    destruct (arrayLoop _ _ _ _ _) as [r|] eqn:Hloop; [|done].
    cbn [fst snd]. intros Hdiags.
    destruct (arrayLoop_mismatch _ _ _ _ _ _ Hloop Hdiags) as [Hty Hne].
    unfold elements_count.
    destruct (lr_type r), (lr_elementType r); done.
  - destruct (parseAsBoolean valString); [done|].
    destruct (parseAsFloat valString); [done|].
    by destruct (parseAsInteger valString).
Qed.

End ArrayLoop.

(** ** The hierarchy builder *)

Section Builder.

Context {platform : Platform}.

(** [paddingHistory] and [paramLengths] are pushed and popped
    together. *)
Definition stacks_parallel (st : parser_state) : Prop :=
  length (paddingHistory st) = length (paramLengths st).

Lemma rewind_parallel ub currentPadding ph pl fpn :
  length ph = length pl ->
  length (rw_paddingHistory (rewind ub currentPadding ph pl fpn))
  = length (rw_paramLengths (rewind ub currentPadding ph pl fpn)).
Proof.
  revert pl fpn. induction ph as [|p ph IH]; intros pl fpn Hlen; [done|].
  destruct pl as [|l pl]; [done|]. simpl in Hlen.
  simpl. destruct ph as [|top ph].
  - destruct pl; [|done]. by destruct (ub <? currentPadding).
  - destruct (top <? currentPadding);
      cbn [rw_paddingHistory rw_paramLengths tail]; [simpl in *; lia|].
    apply IH. lia.
Qed.

(** The value read by [back()] on the emptied [paddingHistory] does not
    influence the loop: it is left either way. *)
Lemma rewind_ub ub1 ub2 currentPadding ph pl fpn :
  length ph = length pl ->
  rewind ub1 currentPadding ph pl fpn = rewind ub2 currentPadding ph pl fpn.
Proof.
  revert pl fpn. induction ph as [|p ph IH]; intros pl fpn Hlen; [done|].
  destruct pl as [|l pl]; [done|]. simpl in Hlen.
  simpl. rewrite (IH pl) by lia.
  destruct ph as [|top ph]; [|done].
  simpl.
  by destruct (ub1 <? currentPadding), (ub2 <? currentPadding).
Qed.

Lemma rewindStack_parallel ub currentPadding ph pl fpn :
  length ph = length pl ->
  length (rw_paddingHistory (rewindStack ub currentPadding ph pl fpn))
  = length (rw_paramLengths (rewindStack ub currentPadding ph pl fpn)).
Proof.
  intros Hlen. unfold rewindStack.
  destruct ph as [|top ph']; [done|].
  destruct (currentPadding <=? top); [|done].
  by apply rewind_parallel.
Qed.

Lemma rewindStack_ub ub1 ub2 currentPadding ph pl fpn :
  length ph = length pl ->
  rewindStack ub1 currentPadding ph pl fpn
  = rewindStack ub2 currentPadding ph pl fpn.
Proof.
  intros Hlen. unfold rewindStack.
  destruct ph as [|top ph']; [done|].
  destruct (currentPadding <=? top); [|done].
  by apply rewind_ub.
Qed.

Lemma parseStep_parallel ub st line :
  stacks_parallel st -> stacks_parallel (parseStep ub st line).
Proof.
  unfold stacks_parallel, parseStep. intros Hst.
  destruct (parseLine line) as [[pvPair currentPadding] ds].
  destruct (_ || _); [done|].
  cbn [paddingHistory paramLengths length]. f_equal.
  by apply rewindStack_parallel.
Qed.

Lemma parseStep_ub ub1 ub2 st line :
  stacks_parallel st -> parseStep ub1 st line = parseStep ub2 st line.
Proof.
  unfold stacks_parallel, parseStep. intros Hst.
  destruct (parseLine line) as [[pvPair currentPadding] ds].
  destruct (_ || _); [done|].
  by rewrite (rewindStack_ub ub1 ub2).
Qed.

Lemma parseLines_ub ub1 ub2 i j st lines :
  stacks_parallel st -> parseLines ub1 i st lines = parseLines ub2 j st lines.
Proof.
  revert i j st. induction lines as [|line lines IH]; intros i j st Hst;
    [done|].
  simpl. rewrite (parseStep_ub (ub1 i) (ub2 j)) by done.
  apply IH. by apply parseStep_parallel.
Qed.

Lemma parseDocument_ub ub1 ub2 lines :
  parseDocument ub1 lines = parseDocument ub2 lines.
Proof. by apply parseLines_ub. Qed.

(** C10.  Two executions of [parseFile] on the same file can only
    differ in the value that the out-of-bounds [back()] of the rewind
    loop reads; whatever these values are, the two executions return
    the same dictionary. *)
Theorem parseFile_deterministic (ub1 ub2 : nat -> nat) (w_fileName : string)
    (file : option (list string)) :
  parseFile ub1 w_fileName file = parseFile ub2 w_fileName file.
Proof.
  destruct file as [lines|]; [|done].
  unfold parseFile. by rewrite (parseDocument_ub ub1 ub2).
Qed.

(** A line whose value is [NO_VAL] is ignored as a whole (line 557):
    no frame is pushed for it. *)
Lemma parseStep_no_value ub st line :
  type (parseLine line).1.1.2 = NO_VAL ->
  parseStep ub st line
  = {| config := config st; fullParamName := fullParamName st;
       paramLengths := paramLengths st; paddingHistory := paddingHistory st;
       diags := diags st ++ (parseLine line).2; faults := faults st |}.
Proof.
  intros Hty. unfold parseStep.
  destruct (parseLine line) as [[pvPair currentPadding] ds].
  simpl in Hty. rewrite (bool_decide_true _ Hty).
  by rewrite orb_true_r.
Qed.

(** The pop of a frame whose recorded length exceeds the length of the
    full name leaves the full name as it is: the [size_t] difference
    wraps, and [substr] clips the count. *)
Lemma rewind_bottom ub currentPadding p fpn :
  (Z.of_nat (Str.size fpn) < 2 ^ 64)%Z ->
  rewind ub currentPadding [p] [1 + Str.size fpn] fpn
  = {| rw_paddingHistory := []; rw_paramLengths := [];
       rw_fullParamName := fpn;
       rw_faults := [SizeUnderflow; BackOfEmptyPaddingHistory] |}.
Proof.
  intros Hbound.
  assert (size_t_sub (Str.size fpn) (1 + Str.size fpn) = (2 ^ 64 - 1)%Z) as Hw.
  { unfold size_t_sub.
    replace (Z.of_nat (Str.size fpn) - Z.of_nat (1 + Str.size fpn))%Z
      with (-1)%Z by lia. done. }
  assert ((Str.size fpn <? 1 + Str.size fpn) = true) as Hlt
    by (apply Nat.ltb_lt; lia).
  assert (Str.substr 0
            (Z.to_nat (Z.min (2 ^ 64 - 1) (Z.of_nat (Str.size fpn)))) fpn
          = fpn) as Hsub.
  { apply StrFacts.substr_0_ge. lia. }
  cbn [rewind tail]. rewrite Hw, Hlt, Hsub.
  by destruct (ub <? currentPadding).
Qed.

(** *** Insertion into the dictionary *)

Lemma config_insert_stable (key p : string) (value v : config_struct)
    (m : gmap string config_struct) :
  m !! p = Some v -> config_insert key value m !! p = Some v.
Proof.
  intros Hp. unfold config_insert.
  destruct (m !! key) eqn:Hkey; [done|].
  rewrite lookup_insert_ne; [done|]. congruence.
Qed.

Lemma config_insert_fresh (key : string) (value : config_struct)
    (m : gmap string config_struct) :
  m !! key = None -> config_insert key value m !! key = Some value.
Proof.
  intros Hkey. unfold config_insert. rewrite Hkey. apply lookup_insert_eq.
Qed.

Lemma config_insert_inv (key p : string) (value v : config_struct)
    (m : gmap string config_struct) :
  config_insert key value m !! p = Some v ->
  m !! p = Some v \/ (key = p /\ value = v).
Proof.
  unfold config_insert. destruct (m !! key) eqn:Hkey; [by left|].
  destruct (decide (key = p)) as [->|Hne].
  - rewrite lookup_insert_eq. intros [= ->]. by right.
  - rewrite lookup_insert_ne by done. by left.
Qed.

Lemma parseStep_config_stable ub st line (p : string) (v : config_struct) :
  config st !! p = Some v -> config (parseStep ub st line) !! p = Some v.
Proof.
  intros Hp. unfold parseStep.
  destruct (parseLine line) as [[pvPair currentPadding] ds].
  destruct (_ || _); [done|]. cbn [config].
  case_bool_decide; [|done]. by apply config_insert_stable.
Qed.

Lemma parseLines_config_stable ub i st lines (p : string) (v : config_struct) :
  config st !! p = Some v -> config (parseLines ub i st lines) !! p = Some v.
Proof.
  revert i st. induction lines as [|line lines IH]; intros i st Hp; [done|].
  simpl. apply IH. by apply parseStep_config_stable.
Qed.

Lemma parseLines_app ub i st (l1 l2 : list string) :
  parseLines ub i st (l1 ++ l2)
  = parseLines ub (i + length l1) (parseLines ub i st l1) l2.
Proof.
  revert i st. induction l1 as [|line l1 IH]; intros i st; simpl.
  - by rewrite Nat.add_0_r.
  - rewrite IH. f_equal. lia.
Qed.

(** The state of [parseFile] when it reaches line number [i]. *)
Definition state_before (ub : nat -> nat) (lines : list string) (i : nat)
    : parser_state :=
  parseLines ub 0 parser_init (take i lines).

(** Line number [i] is accepted with the value [v], which is not
    [NO_VAL], and its full dotted name is [p]: the loop body reaches
    [config.insert({p, v})]. *)
Definition resolves (ub : nat -> nat) (lines : list string) (i : nat)
    (p : string) (v : config_struct) : Prop :=
  exists line, lines !! i = Some line /\
    Str.empty (parseLine line).1.1.1 = false /\
    type (parseLine line).1.1.2 <> NO_VAL /\
    (parseLine line).1.1.2 = v /\
    fullParamName (parseStep (ub i) (state_before ub lines i) line) = p.

Lemma state_before_S ub lines i line :
  lines !! i = Some line ->
  state_before ub lines (S i)
  = parseStep (ub i) (state_before ub lines i) line.
Proof.
  intros Hi. unfold state_before.
  rewrite (take_S_r _ _ _ Hi), parseLines_app. simpl.
  rewrite length_take_le; [done|].
  apply lookup_lt_Some in Hi. lia.
Qed.

Lemma parseDocument_split ub lines i :
  parseDocument ub lines
  = parseLines ub (i `min` length lines) (state_before ub lines i)
      (drop i lines).
Proof.
  unfold parseDocument, state_before.
  rewrite <- (take_drop i lines) at 1.
  by rewrite parseLines_app, length_take.
Qed.

Lemma parseStep_config_inv ub st line (p : string) (v : config_struct) :
  config (parseStep ub st line) !! p = Some v ->
  config st !! p = Some v \/
  (Str.empty (parseLine line).1.1.1 = false /\
   type (parseLine line).1.1.2 <> NO_VAL /\
   (parseLine line).1.1.2 = v /\
   fullParamName (parseStep ub st line) = p).
Proof.
  unfold parseStep.
  destruct (parseLine line) as [[pvPair currentPadding] ds].
  cbn [fst snd].
  destruct (Str.empty pvPair.1) eqn:He; [by left|].
  case_bool_decide as Hty; [by left|].
  cbn [orb config fullParamName]. rewrite bool_decide_true by done.
  intros Hp. apply config_insert_inv in Hp as [Hp|[Hp Hv]]; [by left|].
  right. rewrite <- Hv. by split_and!.
Qed.

(** Every entry of the dictionary was inserted by a line that resolves
    to its key. *)
Lemma config_from_resolves ub lines i (p : string) (v : config_struct) :
  config (state_before ub lines i) !! p = Some v ->
  exists k, k < i /\ resolves ub lines k p v.
Proof.
  induction i as [|i IH]; [done|].
  destruct (lines !! i) as [line|] eqn:Hi.
  - rewrite (state_before_S _ _ _ _ Hi). intros Hp.
    apply parseStep_config_inv in Hp as [Hp|Hp].
    + destruct (IH Hp) as (k & Hk & Hres). exists k. split; [lia | done].
    + exists i. split; [lia|]. by exists line.
  - intros Hp. destruct IH as (k & Hk & Hres).
    + unfold state_before in *. apply lookup_ge_None in Hi.
      by rewrite !take_ge in * by lia.
    + exists k. split; [lia | done].
Qed.

(** C5, as the code has it.  When two accepted lines resolve to the same
    dotted name with values that are not [NO_VAL], the dictionary
    associates the name with the value of the first line that resolves
    to it: [insert] does not overwrite. *)
Theorem first_write_wins (ub : nat -> nat) (lines : list string)
    (i j : nat) (p : string) (vi vj : config_struct) :
  i < j ->
  resolves ub lines i p vi ->
  resolves ub lines j p vj ->
  (forall k v, k < i -> ~ resolves ub lines k p v) ->
  config (parseDocument ub lines) !! p = Some vi.
Proof.
  intros Hij Hi Hj Hfirst.
  destruct Hi as (line & Hline & He & Hty & Hv & Hp).
  assert (config (state_before ub lines i) !! p = None) as Hnone.
  { destruct (config (state_before ub lines i) !! p) as [v|] eqn:Hv'; [|done].
    apply config_from_resolves in Hv' as (k & Hk & Hres).
    by destruct (Hfirst k v Hk). }
  rewrite (parseDocument_split ub lines (S i)).
  apply parseLines_config_stable.
  rewrite (state_before_S _ _ _ _ Hline).
  revert He Hty Hv Hp. unfold parseStep.
  destruct (parseLine line) as [[pvPair currentPadding] ds]. cbn [fst snd].
  intros He Hty Hv Hp. rewrite He in *.
  rewrite (bool_decide_false (type pvPair.2 = NO_VAL)) in * by done.
  cbn [orb config fullParamName] in *.
  rewrite (bool_decide_true (type pvPair.2 <> NO_VAL)) by done.
  rewrite Hp, <- Hv. by apply config_insert_fresh.
Qed.

(** C5, as the specification states it: the value of the last line that
    resolves to the name is the one kept. *)
Definition last_write_wins (ub : nat -> nat) (lines : list string) : Prop :=
  forall (i j : nat) (p : string) (vi vj : config_struct),
    i < j ->
    resolves ub lines i p vi ->
    resolves ub lines j p vj ->
    (forall k v, j < k -> ~ resolves ub lines k p v) ->
    config (parseDocument ub lines) !! p = Some vj.

(** *** Indentation that mixes tabs and spaces *)

(** [parseLine] rejects the line: it returns the empty pair and writes
    at least one diagnostic. *)
Definition rejects (line : string) : Prop :=
  (parseLine line).1.1 = (EmptyString, config_default) /\
  (parseLine line).2 <> [].

(** [parseFile] skips the line: the dictionary, the full name and both
    stacks are as before, only the diagnostics of the line are added. *)
Definition skips (line : string) : Prop :=
  forall ub st,
    parseStep ub st line
    = {| config := config st; fullParamName := fullParamName st;
         paramLengths := paramLengths st; paddingHistory := paddingHistory st;
         diags := diags st ++ (parseLine line).2; faults := faults st |}.

Lemma rejects_skips (line : string) :
  (parseLine line).1.1 = (EmptyString, config_default) -> skips line.
Proof.
  intros Hrej ub st. unfold parseStep.
  destruct (parseLine line) as [[pvPair currentPadding] ds].
  simpl in Hrej. by subst pvPair.
Qed.

Lemma parseLine_tab_then_space (a b : nat) (rest : string) :
  parseLine (Str.replicate a space +:+ Str.replicate (S b) tab
             +:+ String space rest)
  = ((EmptyString, config_default), a + S b, [MixingNotAllowed]).
Proof.
  unfold parseLine. cbv zeta.
  change (Str.replicate (S b) tab +:+ String space rest)
    with (String tab (Str.replicate b tab +:+ String space rest)).
  rewrite StrFacts.replicate_append_empty.
  rewrite trimmLeadingSpaces_run by done.
  change (String tab (Str.replicate b tab +:+ String space rest))
    with (Str.replicate (S b) tab +:+ String space rest).
  rewrite trimmLeadingTabs_run by done.
  cbn [Str.empty Str.front]. rewrite Ascii.eqb_refl.
  do 2 f_equal.
  rewrite !StrFacts.size_append, !StrFacts.size_replicate. lia.
Qed.

Lemma parseLine_space_then_tab (a b : nat) (c : ascii) (rest : string) :
  c <> space -> c <> tab ->
  exists ds,
    parseLine (Str.replicate (S a) space +:+ Str.replicate (S b) tab
               +:+ String c rest)
    = ((parseLine (String c rest)).1.1, S a + S b, WarningMix :: ds).
Proof.
  intros Hs Ht. unfold parseLine. cbv zeta.
  change (Str.replicate (S b) tab +:+ String c rest)
    with (String tab (Str.replicate b tab +:+ String c rest)).
  rewrite StrFacts.replicate_append_empty.
  rewrite trimmLeadingSpaces_run by done.
  change (String tab (Str.replicate b tab +:+ String c rest))
    with (Str.replicate (S b) tab +:+ String c rest).
  rewrite trimmLeadingTabs_run by done.
  rewrite !trimmLeadingSpaces_id, !trimmLeadingTabs_id by done.
  set (trimmed := String c rest).
  set (trimmed_ := Str.replicate (S b) tab +:+ trimmed).
  set (w_line := Str.replicate (S a) space +:+ trimmed_).
  assert (Str.size trimmed_ = S b + Str.size trimmed) as Hsize_.
  { unfold trimmed_. by rewrite StrFacts.size_append, StrFacts.size_replicate. }
  assert (Str.size w_line = S a + Str.size trimmed_) as Hsize.
  { unfold w_line. by rewrite StrFacts.size_append, StrFacts.size_replicate. }
  replace (Str.size w_line - Str.size trimmed) with (S a + S b) by lia.
  replace (Str.size trimmed_ =? Str.size trimmed)
    with false by (symmetry; apply Nat.eqb_neq; lia).
  replace (Str.size trimmed_ =? Str.size w_line)
    with false by (symmetry; apply Nat.eqb_neq; lia).
  rewrite Nat.eqb_refl.
  clearbody w_line trimmed_. subst trimmed.
  cbn [negb andb app Str.empty Str.front].
  rewrite (proj2 (Ascii.eqb_neq c space)) by done.
  case_bool_decide; [by eexists|].
  destruct (Str.find_char ":" (String c rest)) as [[|n]|]; try by eexists.
  destruct (Str.empty (trimmWhiteSpaces _)); [by eexists|].
  destruct (classify _) as [cfg ds]. by eexists.
Qed.

(** C7, as the code has it.  A line whose leading run is any number of
    spaces, then one or more tabs, then a space, is rejected with the
    diagnostic about mixing, and [parseFile] skips it without touching
    the path or the stacks.  A line whose leading run is one or more
    spaces followed by one or more tabs, before a character that is
    neither, is not rejected: a warning is written and the line is
    parsed like the line without its leading run, with the length of
    the run as its indentation. *)
Theorem mixed_indentation (a b : nat) (rest : string) :
  (parseLine (Str.replicate a space +:+ Str.replicate (S b) tab
              +:+ String space rest)
   = ((EmptyString, config_default), a + S b, [MixingNotAllowed])
   /\ skips (Str.replicate a space +:+ Str.replicate (S b) tab
             +:+ String space rest))
  /\ (forall c : ascii, c <> space -> c <> tab ->
      exists ds,
        parseLine (Str.replicate (S a) space +:+ Str.replicate (S b) tab
                   +:+ String c rest)
        = ((parseLine (String c rest)).1.1, S a + S b, WarningMix :: ds)).
Proof.
  split; [split|].
  - apply parseLine_tab_then_space.
  - apply rejects_skips. by rewrite parseLine_tab_then_space.
  - intros c Hs Ht. by apply parseLine_space_then_tab.
Qed.

End Builder.

(** The leading run of a line: its longest prefix of spaces and tabs. *)
Fixpoint leading_run (s : string) : string :=
  match s with
  | String c s' =>
      if Ascii.eqb c space || Ascii.eqb c tab
      then String c (leading_run s') else EmptyString
  | EmptyString => EmptyString
  end.

Definition mixes_tabs_and_spaces (line : string) : Prop :=
  Str.find_char space (leading_run line) <> None /\
  Str.find_char tab (leading_run line) <> None.

(** C7, as the specification states it: every line whose leading run
    mixes tabs and spaces is rejected and skipped. *)
Definition mixed_line_rejected {platform : Platform} (line : string) : Prop :=
  mixes_tabs_and_spaces line -> rejects line /\ skips line.

(** ** The code on concrete inputs *)

Definition doc_children : list string := ["a:"; "  b: 1"; "  c: 2"].
Definition doc_child_true : list string := ["a:"; "  b: TRUE"].
(** The example of the comment on [configList], lines 118-124. *)
Definition doc_glossary : list string :=
  ["glossary:";
   "   title:  " +:+ quoted "example glossary";
   "   GlossDiv: ";
   "       title: " +:+ quoted "S"].
Definition doc_rewind : list string := ["a:"; "  b:"; "    c: 1"; "d: 2"].
Definition doc_rewind_true : list string :=
  ["a: TRUE"; "  b: TRUE"; "    c: TRUE"; "d: TRUE"].
Definition doc_siblings : list string := ["a: TRUE"; "b: TRUE"].
Definition doc_duplicate : list string := ["a: TRUE"; "  b: TRUE"; "  b: FALSE"].
Definition line_space_tab : string := String space (String tab "foo: TRUE").
Definition array_mismatch : string := "[TRUE, " +:+ quoted "ab" +:+ "]".

Section Evaluation.

Context {platform : Platform}.

(** C1 on the code.  [std::stoi] converts the token 42, but
    [parseAsInteger] does not call it on a token without a '.': the
    token is not classified, and the line [x: 42] has no value. *)
Theorem integer_without_point_unparsed :
  stoi "42" = Some 42%Z /\
  parseAsInteger "42" = None /\
  classify "42" = (no_value "42", []) /\
  (parseLine "x: 42").1.1 = ("x", no_value "42").
Proof. by vm_compute. Qed.

(** C2 on the code.  A line without value is ignored before its frame is
    pushed: after [a:] the state is the initial one, the document
    [a:], [  b: 1], [  c: 2] gives an empty dictionary, and in [a:],
    [  b: TRUE] the value is stored under [b], not under [a.b].  On the
    example of the header's own comment the last entry is stored under
    [title.title], where the comment announces
    [glossary.GlossDiv.title]. *)
Theorem valueless_line_pushes_no_frame (ub : nat -> nat) :
  parseDocument ub ["a:"] = parser_init /\
  config (parseDocument ub doc_children) = ∅ /\
  config (parseDocument ub doc_child_true) !! "a.b" = None /\
  config (parseDocument ub doc_child_true) !! "b"
  = Some (boolean_value "TRUE" true) /\
  config (parseDocument ub doc_glossary) !! "glossary.GlossDiv.title" = None /\
  config (parseDocument ub doc_glossary) !! "title.title"
  = Some (string_value (quoted "S") "S").
Proof. by vm_compute. Qed.

(** C3 on the code.  The document of the specification's rewind
    scenario gives an empty dictionary.  With values the parser accepts, the pop of the bottom
    frame removes nothing from the full name ([a] is one character,
    the recorded length is two): the last line is stored under [a.d],
    and there is no entry [d]. *)
Theorem rewind_keeps_first_segment (ub : nat -> nat) :
  config (parseDocument ub doc_rewind) = ∅ /\
  fullParamName (parseDocument ub doc_rewind_true) = "a.d" /\
  config (parseDocument ub doc_rewind_true) !! "a.b.c"
  = Some (boolean_value "TRUE" true) /\
  config (parseDocument ub doc_rewind_true) !! "a.d"
  = Some (boolean_value "TRUE" true) /\
  config (parseDocument ub doc_rewind_true) !! "d" = None.
Proof. by vm_compute. Qed.

(** C4 on the code.  On two sibling lines the rewind loop subtracts the
    recorded length 2 from the length 1 of the full name, and then reads
    [back()] of the emptied [paddingHistory]. *)
Theorem rewind_faults (ub : nat -> nat) :
  faults (parseDocument ub doc_siblings)
  = [SizeUnderflow; BackOfEmptyPaddingHistory] /\
  size_t_sub 1 2 = (2 ^ 64 - 1)%Z /\
  fullParamName (parseDocument ub doc_siblings) = "a.b".
Proof. by vm_compute. Qed.

(** C6 on the code.  In an array whose second element has another type
    than the first, the loop stops with the diagnostic, the type is the
    one of the first element, but the vector that is copied is the one
    of the mismatching element: the value has type [BOOLEAN], no
    Boolean element, and the string as a string element. *)
Theorem array_mismatch_copies_wrong_vector :
  classify array_mismatch
  = ({| type := BOOLEAN; rawString := array_mismatch; stringVal := ["ab"];
        boolVal := []; floatVal := []; intVal := [] |}, [ArraySameType]).
Proof. by vm_compute. Qed.

Lemma doc_duplicate_resolves_1 (ub : nat -> nat) :
  resolves ub doc_duplicate 1 "a.b" (boolean_value "TRUE" true).
Proof. exists "  b: TRUE". by vm_compute. Qed.

Lemma doc_duplicate_resolves_2 (ub : nat -> nat) :
  resolves ub doc_duplicate 2 "a.b" (boolean_value "FALSE" false).
Proof. exists "  b: FALSE". by vm_compute. Qed.

Lemma doc_duplicate_first (ub : nat -> nat) (k : nat) (v : config_struct) :
  k < 1 -> ~ resolves ub doc_duplicate k "a.b" v.
Proof.
  intros Hk (line & Hline & _ & _ & _ & Hp).
  destruct k as [|k]; [|lia].
  injection Hline as <-. vm_compute in Hp. discriminate.
Qed.

Lemma doc_duplicate_last (ub : nat -> nat) (k : nat) (v : config_struct) :
  2 < k -> ~ resolves ub doc_duplicate k "a.b" v.
Proof.
  intros Hk (line & Hline & _).
  destruct k as [|[|[|k]]]; [lia..|]. discriminate.
Qed.

Lemma line_space_tab_mixes : mixes_tabs_and_spaces line_space_tab.
Proof. by vm_compute. Qed.

End Evaluation.

(** A platform on which [std::stof] always throws, to close the examples
    below; none of their tokens contains a '.', so that the parser does
    not call [std::stof] on them. *)
Definition platform_without_float : Platform :=
  {| float := unit; float_zero := tt; stof := fun _ => None |}.

(** Witness of C8: the token ["abc"], in double quotes. *)
Lemma classify_quoted_witness :
  exists body, quoted "abc" = quoted body /\
    classify (platform := platform_without_float) (quoted "abc")
    = (string_value (quoted "abc") body, []).
Proof.
  apply (proj1 (classify_quoted (platform := platform_without_float)
                  (quoted "abc")));
    [vm_compute; lia | reflexivity | reflexivity].
Defined.

(** Witness of C9: the tokens NOTTRUE and xFALSE. *)
Lemma classify_boolean_witness :
  classify (platform := platform_without_float) "NOTTRUE"
  = (boolean_value "NOTTRUE" true, []) /\
  classify (platform := platform_without_float) "xFALSE"
  = (boolean_value "xFALSE" false, []).
Proof.
  split.
  - apply (classify_boolean (platform := platform_without_float) "NOTTRUE").
    + discriminate.
    + intros (_ & Hfront & _). discriminate Hfront.
    + intros (Hfront & _). discriminate Hfront.
    + by exists "NOT", EmptyString.
  - apply (classify_boolean (platform := platform_without_float) "xFALSE").
    + discriminate.
    + intros (_ & Hfront & _). discriminate Hfront.
    + intros (Hfront & _). discriminate Hfront.
    + by apply find_None_not_contains.
    + by exists "x", EmptyString.
Defined.

(** Witness of C5: in [a: TRUE], [  b: TRUE], [  b: FALSE] the second and
    the third line resolve to [a.b]; the value of the second is kept. *)
Lemma first_write_wins_witness :
  config (parseDocument (platform := platform_without_float) (fun _ => 0)
            doc_duplicate) !! "a.b"
  = Some (boolean_value "TRUE" true).
Proof.
  apply (first_write_wins (platform := platform_without_float) (fun _ => 0)
           doc_duplicate 1 2 "a.b" (boolean_value "TRUE" true)
           (boolean_value "FALSE" false)).
  - lia.
  - apply doc_duplicate_resolves_1.
  - apply doc_duplicate_resolves_2.
  - apply doc_duplicate_first.
Defined.

(** Counterexample to C5 as stated: on no platform does the last write
    win in [a: TRUE], [  b: TRUE], [  b: FALSE]. *)
Lemma last_write_wins_counterexample :
  ~ exists (platform : Platform) (ub : nat -> nat),
      last_write_wins ub doc_duplicate.
Proof.
  intros (platform & ub & Hlast).
  specialize (Hlast 1 2 "a.b" _ _ (le_n 2)
                (doc_duplicate_resolves_1 ub) (doc_duplicate_resolves_2 ub)
                (doc_duplicate_last ub)).
  vm_compute in Hlast. discriminate.
Qed.

(** Witness of C7: two spaces, two tabs, then [foo: TRUE]. *)
Lemma mixed_indentation_witness :
  exists ds,
    parseLine (platform := platform_without_float)
      (Str.replicate 2 space +:+ Str.replicate 2 tab +:+ "foo: TRUE")
    = ((parseLine "foo: TRUE").1.1, 4, WarningMix :: ds).
Proof.
  apply (proj2 (mixed_indentation (platform := platform_without_float)
                  1 1 "oo: TRUE") "f"%char);
    intros Heq; discriminate Heq.
Defined.

(** Counterexample to C7 as stated: the line made of a space, a tab and
    [foo: TRUE] mixes both characters in its leading run, and on no
    platform is it rejected: [parseLine] returns the name [foo]. *)
Lemma mixed_line_rejected_counterexample :
  ~ exists platform : Platform, mixed_line_rejected line_space_tab.
Proof.
  intros (platform & Hrej).
  destruct (Hrej line_space_tab_mixes) as [[Hpair _] _].
  vm_compute in Hpair. discriminate.
Qed.


(** * Further properties of the code *)

(** ** The trimming helpers (lines 139-200) *)

Lemma append_empty_r (s : string) : s +:+ EmptyString = s.
Proof. induction s as [|c s IH]; simpl; [done | by rewrite IH]. Qed.

Lemma append_assoc (a b c : string) : (a +:+ b) +:+ c = a +:+ b +:+ c.
Proof. induction a as [|d a IH]; simpl; [done | by rewrite IH]. Qed.

(** A string is a run of [c], or a run of [c] followed by another
    character; [find_first_not_of] tells which. *)
Lemma find_first_not_of_cases (c : ascii) (s : string) :
  match Str.find_first_not_of c s with
  | Some n => exists d rest, d <> c /\ s = Str.replicate n c +:+ String d rest
  | None => s = Str.replicate (Str.size s) c
  end.
Proof.
  induction s as [|a s IH]; [done|].
  simpl. destruct (Ascii.eqb_spec a c) as [->|Hne].
  - destruct (Str.find_first_not_of c s) as [n|]; simpl.
    + destruct IH as (d & rest & Hd & ->). by exists d, rest.
    + by rewrite <- IH.
  - by exists a, s.
Qed.

(** A string is a run of [c], or ends in a character other than [c]
    followed by a run of [c]; [find_last_not_of] gives the index of this
    character. *)
Lemma find_last_not_of_cases (c : ascii) (s : string) :
  match Str.find_last_not_of c s with
  | Some n =>
      exists pre d k, d <> c /\ Str.size pre = n /\
                      s = pre +:+ String d (Str.replicate k c)
  | None => s = Str.replicate (Str.size s) c
  end.
Proof.
  induction s as [|a s IH]; [done|].
  simpl. destruct (Str.find_last_not_of c s) as [n|].
  - destruct IH as (pre & d & k & Hd & Hn & ->).
    exists (String a pre), d, k. simpl. by rewrite Hn.
  - destruct (Ascii.eqb_spec a c) as [->|Hne].
    + by rewrite <- IH.
    + exists EmptyString, a, (Str.size s). by rewrite <- IH.
Qed.

Lemma front_append_snoc (pre : string) (d : ascii) (s : string) :
  Str.front (pre +:+ String d EmptyString)
  = Str.front (pre +:+ String d s).
Proof. by destruct pre. Qed.

(** What [trimmLeadingSpaces] removes is a run of spaces, and what it
    returns does not start with a space. *)
Lemma trimmLeadingSpaces_spec (s : string) :
  exists n, s = Str.replicate n space +:+ trimmLeadingSpaces s /\
            Str.front (trimmLeadingSpaces s) <> space.
Proof.
  unfold trimmLeadingSpaces. destruct s as [|a s]; [by exists 0|].
  cbn [Str.empty].
  pose proof (find_first_not_of_cases space (String a s)) as Hc.
  destruct (Str.find_first_not_of space (String a s)) as [n|].
  - destruct Hc as (d & rest & Hd & ->). exists n.
    by rewrite StrFacts.substr_from_run.
  - exists (Str.size (String a s)). by rewrite append_empty_r.
Qed.

Lemma trimmLeadingTabs_spec (s : string) :
  exists n, s = Str.replicate n tab +:+ trimmLeadingTabs s /\
            Str.front (trimmLeadingTabs s) <> tab.
Proof.
  unfold trimmLeadingTabs. destruct s as [|a s]; [by exists 0|].
  cbn [Str.empty].
  pose proof (find_first_not_of_cases tab (String a s)) as Hc.
  destruct (Str.find_first_not_of tab (String a s)) as [n|].
  - destruct Hc as (d & rest & Hd & ->). exists n.
    by rewrite StrFacts.substr_from_run.
  - exists (Str.size (String a s)). by rewrite append_empty_r.
Qed.

Lemma substr_0_snoc (pre : string) (d : ascii) (s : string) :
  Str.substr 0 (Str.size pre + 1) (pre +:+ String d s)
  = pre +:+ String d EmptyString.
Proof.
  unfold Str.substr. induction pre as [|a pre IH]; simpl.
  - by rewrite StrFacts.substring_0_0.
  - by rewrite IH.
Qed.

(** What [trimmTrailingSpaces] removes is a run of spaces, and what it
    returns does not end with a space. *)
Lemma trimmTrailingSpaces_spec (s : string) :
  exists n, s = trimmTrailingSpaces s +:+ Str.replicate n space /\
            Str.back (trimmTrailingSpaces s) <> Some space.
Proof.
  unfold trimmTrailingSpaces. destruct s as [|a s]; [by exists 0|].
  cbn [Str.empty].
  pose proof (find_last_not_of_cases space (String a s)) as Hc.
  destruct (Str.find_last_not_of space (String a s)) as [n|].
  - destruct Hc as (pre & d & k & Hd & <- & ->). exists k.
    rewrite substr_0_snoc, append_assoc, back_snoc. split; [done|congruence].
  - by exists (Str.size (String a s)).
Qed.

Lemma trimmLeadingSpaces_fixed (s : string) :
  Str.front s <> space -> trimmLeadingSpaces s = s.
Proof.
  destruct s as [|a s]; [done|]. intros Ha. by apply trimmLeadingSpaces_id.
Qed.

Lemma find_last_not_of_run (c : ascii) (n : nat) :
  Str.find_last_not_of c (Str.replicate n c) = None.
Proof.
  induction n as [|n IH]; [done|]. simpl. by rewrite IH, Ascii.eqb_refl.
Qed.

Lemma find_last_not_of_snoc (c d : ascii) (pre : string) (k : nat) :
  d <> c ->
  Str.find_last_not_of c (pre +:+ String d (Str.replicate k c))
  = Some (Str.size pre).
Proof.
  intros Hd. induction pre as [|a pre IH]; simpl.
  - by rewrite find_last_not_of_run, (proj2 (Ascii.eqb_neq d c)).
  - by rewrite IH.
Qed.

Lemma back_None (s : string) : Str.back s = None -> s = EmptyString.
Proof.
  induction s as [|a s IH]; [done|].
  destruct s as [|b s]; [done|]. intros Hb. by specialize (IH Hb).
Qed.

Lemma trimmTrailingSpaces_fixed (s : string) :
  Str.back s <> Some space -> trimmTrailingSpaces s = s.
Proof.
  intros Hb. destruct (Str.back s) as [d|] eqn:Hd.
  - apply back_Some_snoc in Hd as [pre ->].
    unfold trimmTrailingSpaces.
    assert (Str.empty (pre +:+ String d EmptyString) = false) as ->
      by (by destruct pre).
    pose proof (find_last_not_of_snoc space d pre 0) as Hl.
    change (Str.replicate 0 space) with EmptyString in Hl.
    rewrite Hl by congruence.
    apply substr_0_snoc.
  - by rewrite (back_None s Hd).
Qed.

Lemma front_trimmTrailingSpaces (s : string) :
  Str.front s <> space -> Str.front (trimmTrailingSpaces s) <> space.
Proof.
  intros Hf. destruct (trimmTrailingSpaces_spec s) as (n & Hs & _).
  destruct (trimmTrailingSpaces s) as [|a t] eqn:Ht; [done|].
  rewrite Hs in Hf. exact Hf.
Qed.

(** What [trimmWhiteSpaces] returns has no space at either end. *)
Lemma trimmWhiteSpaces_ends (s : string) :
  Str.front (trimmWhiteSpaces s) <> space /\
  Str.back (trimmWhiteSpaces s) <> Some space.
Proof.
  unfold trimmWhiteSpaces. split.
  - apply front_trimmTrailingSpaces.
    by destruct (trimmLeadingSpaces_spec s) as (n & _ & Hf).
  - by destruct (trimmTrailingSpaces_spec (trimmLeadingSpaces s))
      as (n & _ & Hb).
Qed.

Lemma trimmWhiteSpaces_fixed (s : string) :
  Str.front s <> space -> Str.back s <> Some space ->
  trimmWhiteSpaces s = s.
Proof.
  intros Hf Hb. unfold trimmWhiteSpaces.
  rewrite trimmLeadingSpaces_fixed by done.
  by apply trimmTrailingSpaces_fixed.
Qed.

(** What [trimmWhiteSpaces] removes is a run of spaces at each end. *)
Lemma trimmWhiteSpaces_around (s : string) :
  exists a b, s = Str.replicate a space +:+ trimmWhiteSpaces s
                  +:+ Str.replicate b space.
Proof.
  unfold trimmWhiteSpaces.
  destruct (trimmLeadingSpaces_spec s) as (a & Ha & _).
  destruct (trimmTrailingSpaces_spec (trimmLeadingSpaces s)) as (b & Hb & _).
  exists a, b. by rewrite <- Hb.
Qed.

(** [trimmLeadingSpaces] and [trimmLeadingTabs] remove a run of spaces
    (of tabs) from the front and nothing else, and what they return does
    not start with a space (a tab). *)
Theorem trimmLeading_removes_run (s : string) :
  (exists n, s = Str.replicate n space +:+ trimmLeadingSpaces s /\
             Str.front (trimmLeadingSpaces s) <> space)
  /\ (exists n, s = Str.replicate n tab +:+ trimmLeadingTabs s /\
                Str.front (trimmLeadingTabs s) <> tab).
Proof.
  split; [apply trimmLeadingSpaces_spec | apply trimmLeadingTabs_spec].
Qed.

(** [trimmTrailingSpaces] removes a run of spaces from the end and
    nothing else, what it returns does not end with a space, and it
    leaves the front of a text that does not start with a space as it
    is. *)
Theorem trimmTrailing_removes_run (s : string) :
  (exists n, s = trimmTrailingSpaces s +:+ Str.replicate n space /\
             Str.back (trimmTrailingSpaces s) <> Some space)
  /\ (Str.front s <> space -> Str.front (trimmTrailingSpaces s) <> space).
Proof.
  split; [apply trimmTrailingSpaces_spec | apply front_trimmTrailingSpaces].
Qed.

(** [trimmWhiteSpaces] removes the spaces around a text that has a
    space at neither end, and trimming twice is trimming once.  Tabs
    are not spaces: a tab at either end stays. *)
Theorem trimmWhiteSpaces_idempotent (s : string) :
  trimmWhiteSpaces (trimmWhiteSpaces s) = trimmWhiteSpaces s
  /\ (exists a b, s = Str.replicate a space +:+ trimmWhiteSpaces s
                      +:+ Str.replicate b space
                  /\ Str.front (trimmWhiteSpaces s) <> space
                  /\ Str.back (trimmWhiteSpaces s) <> Some space)
  /\ trimmWhiteSpaces (String tab (s +:+ String tab EmptyString))
     = String tab (s +:+ String tab EmptyString).
Proof.
  split; [|split].
  - apply trimmWhiteSpaces_fixed; apply trimmWhiteSpaces_ends.
  - destruct (trimmWhiteSpaces_around s) as (a & b & Hs).
    exists a, b. split; [done|]. apply trimmWhiteSpaces_ends.
  - apply trimmWhiteSpaces_fixed; [done|].
    change (String tab (s +:+ String tab EmptyString))
      with (String tab s +:+ String tab EmptyString).
    by rewrite back_snoc.
Qed.


(** ** The shapes of a line ([parseLine], lines 323-518) *)

Lemma find_first_not_of_all (c : ascii) (n : nat) :
  Str.find_first_not_of c (Str.replicate n c) = None.
Proof.
  induction n as [|n IH]; [done|]. simpl. by rewrite Ascii.eqb_refl, IH.
Qed.

Lemma trimmLeadingSpaces_indent (n : nat) (s : string) :
  Str.front s <> space ->
  trimmLeadingSpaces (Str.replicate n space +:+ s) = s.
Proof.
  intros Hs. destruct s as [|d s]; [|by apply trimmLeadingSpaces_run].
  rewrite append_empty_r. unfold trimmLeadingSpaces.
  rewrite find_first_not_of_all. by destruct (Str.empty _).
Qed.

Lemma trimmLeadingTabs_indent (n : nat) (s : string) :
  Str.front s <> tab ->
  trimmLeadingTabs (Str.replicate n tab +:+ s) = s.
Proof.
  intros Hs. destruct s as [|d s]; [|by apply trimmLeadingTabs_run].
  rewrite append_empty_r. unfold trimmLeadingTabs.
  rewrite find_first_not_of_all. by destruct (Str.empty _).
Qed.

Lemma find_char_append (c : ascii) (a b : string) :
  Str.find_char c a = None ->
  Str.find_char c (a +:+ String c b) = Some (Str.size a).
Proof.
  induction a as [|d a IH]; simpl.
  - by rewrite Ascii.eqb_refl.
  - destruct (Ascii.eqb d c); [done|].
    destruct (Str.find_char c a); [done|]. intros _. by rewrite IH.
Qed.

Lemma find_char_append_None (c : ascii) (a b : string) :
  Str.find_char c (a +:+ b) = None <->
  Str.find_char c a = None /\ Str.find_char c b = None.
Proof.
  induction a as [|d a IH]; simpl.
  - split; [done | by intros [_ H]].
  - destruct (Ascii.eqb d c); [split; [done | by intros [H _]]|].
    by rewrite !fmap_None.
Qed.

Lemma find_char_not_first (c d : ascii) (s : string) :
  d <> c -> Str.find_char c (String d s) <> Some 0.
Proof.
  intros Hd. simpl. rewrite (proj2 (Ascii.eqb_neq d c)) by done.
  by destruct (Str.find_char c s).
Qed.

Lemma find_char_replicate (c d : ascii) (n : nat) :
  d <> c -> Str.find_char c (Str.replicate n d) = None.
Proof.
  intros Hd. induction n as [|n IH]; [done|].
  simpl. by rewrite (proj2 (Ascii.eqb_neq d c)), IH.
Qed.

(** The text before the first [c] has no [c]. *)
Lemma find_char_before (c : ascii) (s : string) (n : nat) :
  Str.find_char c s = Some n ->
  exists post, s = Str.substr 0 n s +:+ String c post /\
               Str.find_char c (Str.substr 0 n s) = None /\
               Str.size (Str.substr 0 n s) = n.
Proof.
  unfold Str.substr. revert n. induction s as [|d s IH]; [done|].
  intros n. simpl. destruct (Ascii.eqb_spec d c) as [->|Hne].
  - intros [= <-]. by exists s.
  - destruct (Str.find_char c s) as [m|] eqn:Hm; [|done].
    intros [= <-]. destruct (IH m eq_refl) as (post & Hs & Hnone & Hsz).
    exists post. simpl. rewrite <- Hs, Hnone, Hsz.
    by rewrite (proj2 (Ascii.eqb_neq d c)).
Qed.

Lemma substr_from_append (a s : string) :
  Str.substr_from (Str.size a) (a +:+ s) = s.
Proof.
  induction a as [|c a IH]; [apply StrFacts.substr_from_0 | exact IH].
Qed.

Section LineShapes.

Context {platform : Platform}.

(** A leading run of [a] spaces followed by [b] tabs. *)
Definition indent (a b : nat) : string :=
  Str.replicate a space +:+ Str.replicate b tab.

(** The warning of lines 354-357, for such a run. *)
Definition warning (a b : nat) : list diag :=
  if (0 <? a) && (0 <? b) then [WarningMix] else [].

(** Lines 343-517 of [parseLine], once [trimmed], [w_padding] and the
    warning are known, for a [trimmed] that does not start with a
    space. *)
Definition parseTrimmed (w_line trimmed : string) (w_padding : nat)
    (warn : list diag) : paramValuePair * nat * list diag :=
  let pvPair := (EmptyString, config_default) in
  if Str.empty trimmed then (pvPair, w_padding, [])
  else if bool_decide (Str.find_char "#" trimmed = Some 0) then
    (pvPair, w_padding, warn)
  else
    match Str.find_char ":" trimmed with
    | None => (pvPair, w_padding, warn ++ [InvalidLine w_line])
    | Some 0 => (pvPair, w_padding, warn ++ [InvalidLine w_line])
    | Some n =>
        let paramString := trimmWhiteSpaces (Str.substr 0 n trimmed) in
        let valString :=
          if n <? Str.size trimmed
          then trimmWhiteSpaces (Str.substr_from (n + 1) trimmed)
          else EmptyString in
        if Str.empty paramString then
          (pvPair, w_padding, warn ++ [MissingParam])
        else
          let '(c, ds) := classify valString in
          ((paramString, c), w_padding, warn ++ ds)
    end.

Lemma parseLine_indent (a b : nat) (rest : string) :
  Str.front rest <> space -> Str.front rest <> tab ->
  parseLine (indent a b +:+ rest)
  = parseTrimmed (indent a b +:+ rest) rest (a + b) (warning a b).
Proof.
  intros Hs Ht. unfold parseLine, parseTrimmed, indent. cbv zeta.
  rewrite append_assoc.
  assert (Str.front (Str.replicate b tab +:+ rest) <> space) as Hs'
    by (by destruct b).
  rewrite (trimmLeadingSpaces_indent a) by done.
  rewrite (trimmLeadingTabs_indent b) by done.
  set (trimmed_ := Str.replicate b tab +:+ rest).
  set (w_line := Str.replicate a space +:+ trimmed_).
  assert (Str.size trimmed_ = b + Str.size rest) as Hsize_.
  { unfold trimmed_. by rewrite StrFacts.size_append, StrFacts.size_replicate. }
  assert (Str.size w_line = a + Str.size trimmed_) as Hsize.
  { unfold w_line. by rewrite StrFacts.size_append, StrFacts.size_replicate. }
  replace (Str.size w_line - Str.size rest) with (a + b) by lia.
  assert ((Str.size trimmed_ =? Str.size rest) = (b =? 0)) as ->.
  { rewrite Hsize_.
    destruct (Nat.eqb_spec (b + Str.size rest) (Str.size rest)),
      (Nat.eqb_spec b 0); try done; exfalso; lia. }
  assert ((Str.size trimmed_ =? Str.size w_line) = (a =? 0)) as ->.
  { rewrite Hsize.
    destruct (Nat.eqb_spec (Str.size trimmed_) (a + Str.size trimmed_)),
      (Nat.eqb_spec a 0); try done; exfalso; lia. }
  assert (negb (b =? 0) && negb (a =? 0) = (0 <? a) && (0 <? b)) as ->
    by (by destruct a, b).
  fold (warning a b).
  destruct (Str.empty w_line) eqn:Hw.
  - assert (w_line = EmptyString) as Hw' by (by destruct w_line).
    assert (Str.size w_line = 0) as H0 by (by rewrite Hw').
    assert (rest = EmptyString) as -> by (destruct rest; [done|simpl in *; lia]).
    simpl. f_equal. f_equal. lia.
  - clearbody w_line trimmed_.
    destruct (Str.empty rest) eqn:Hr; [done|].
    by rewrite (proj2 (Ascii.eqb_neq (Str.front rest) space)).
Qed.

(** A line that consists of spaces followed by tabs (the empty line
    too) gives no pair and no diagnostic; its indentation is its
    length. *)
Theorem parseLine_blank (a b : nat) :
  parseLine (indent a b) = ((EmptyString, config_default), a + b, []).
Proof.
  rewrite <- (append_empty_r (indent a b)).
  by rewrite parseLine_indent.
Qed.

(** A line whose first character after the indentation is '#' is a
    comment: it gives no pair, whatever follows, and no diagnostic but
    the warning about spaces before tabs. *)
Theorem parseLine_comment (a b : nat) (rest : string) :
  parseLine (indent a b +:+ String "#" rest)
  = ((EmptyString, config_default), a + b, warning a b).
Proof. by rewrite parseLine_indent. Qed.

(** A line without colon, or whose first character after the
    indentation is the colon, is reported as invalid with its whole
    text, and gives no pair. *)
Theorem parseLine_invalid (a b : nat) (c : ascii) (rest : string) :
  c <> space -> c <> tab -> c <> "#"%char ->
  c = ":"%char \/ Str.find_char ":" (String c rest) = None ->
  parseLine (indent a b +:+ String c rest)
  = ((EmptyString, config_default), a + b,
     warning a b ++ [InvalidLine (indent a b +:+ String c rest)]).
Proof.
  intros Hs Ht Hh Hc. rewrite parseLine_indent by done.
  unfold parseTrimmed. cbn [Str.empty].
  rewrite bool_decide_false.
  2:{ by apply find_char_not_first. }
  destruct Hc as [->|Hc]; [done|]. by rewrite Hc.
Qed.

(** The format of a line: after an indentation of [a] spaces and [b]
    tabs, a name that starts with a character other than space, tab, '#'
    and ':' and has no colon, then a colon, then the value.  The pair
    has the name without its trailing spaces and the classified trimmed
    value; the indentation is [a + b], every tab counting as one. *)
Theorem parseLine_format (a b : nat) (c : ascii) (name value : string) :
  c <> space -> c <> tab -> c <> "#"%char -> c <> ":"%char ->
  Str.find_char ":" name = None ->
  parseLine (indent a b +:+ String c name +:+ String ":" value)
  = ((trimmTrailingSpaces (String c name),
      (classify (trimmWhiteSpaces value)).1),
     a + b,
     warning a b ++ (classify (trimmWhiteSpaces value)).2).
Proof.
  intros Hs Ht Hh Hc Hname.
  change (String c name +:+ String ":" value)
    with (String c (name +:+ String ":" value)).
  rewrite parseLine_indent by done.
  unfold parseTrimmed. cbn [Str.empty].
  rewrite bool_decide_false.
  2:{ by apply find_char_not_first. }
  change (String c (name +:+ String ":" value))
    with (String c name +:+ String ":" value).
  assert (Str.find_char ":" (String c name) = None) as Hname'.
  { simpl. by rewrite (proj2 (Ascii.eqb_neq c ":")), Hname. }
  rewrite (find_char_append ":" (String c name) value Hname').
  cbn [Str.size String.length]. cbv zeta.
  change (S (String.length name)) with (Str.size (String c name)).
  rewrite StrFacts.substr_0_append.
  assert (trimmWhiteSpaces (String c name) = trimmTrailingSpaces (String c name))
    as -> by (unfold trimmWhiteSpaces; by rewrite trimmLeadingSpaces_id).
  rewrite StrFacts.size_append.
  assert ((Str.size (String c name)
           <? Str.size (String c name) + Str.size (String ":" value)) = true)
    as -> by (apply Nat.ltb_lt; simpl; lia).
  assert (Str.substr_from (Str.size (String c name) + 1)
            (String c name +:+ String ":" value) = value) as ->.
  { change (String ":" value) with (String ":" EmptyString +:+ value).
    rewrite <- (append_assoc (String c name) (String ":" EmptyString) value).
    replace (Str.size (String c name) + 1)
      with (Str.size (String c name +:+ String ":" EmptyString))
      by (rewrite StrFacts.size_append; done).
    apply substr_from_append. }
  assert (Str.empty (trimmTrailingSpaces (String c name)) = false) as ->.
  { destruct (trimmTrailingSpaces_spec (String c name)) as (n & Hn & _).
    destruct (trimmTrailingSpaces (String c name)); [|done].
    destruct n; [done|]. simpl in Hn. congruence. }
  by destruct (classify (trimmWhiteSpaces value)).
Qed.

End LineShapes.


Lemma trimmWhiteSpaces_nonempty (c : ascii) (s : string) :
  c <> space -> Str.empty (trimmWhiteSpaces (String c s)) = false.
Proof.
  intros Hc. unfold trimmWhiteSpaces. rewrite trimmLeadingSpaces_id by done.
  destruct (trimmTrailingSpaces_spec (String c s)) as (n & Hn & _).
  destruct (trimmTrailingSpaces (String c s)); [|done].
  destruct n; [done|]. simpl in Hn. congruence.
Qed.

Lemma find_char_trimmWhiteSpaces (c : ascii) (s : string) :
  Str.find_char c s = None -> Str.find_char c (trimmWhiteSpaces s) = None.
Proof.
  destruct (trimmWhiteSpaces_around s) as (a & b & Hs).
  rewrite Hs at 1. rewrite !find_char_append_None. by intros (_ & H & _).
Qed.

Section LineResults.

Context {platform : Platform}.

(** The diagnostics of the array loop: none, one unknown element, or
    one type mismatch. *)
Lemma arrayLoop_diags (fuel : nat) (elements : string)
    (ty elementType : type_) (v : vals) (r : loop_result) :
  arrayLoop fuel elements ty elementType v = Some r ->
  lr_diags r = [] \/ (exists e, lr_diags r = [UnknownType e]) \/
  lr_diags r = [ArraySameType].
Proof.
  revert elements ty elementType v.
  induction fuel as [|fuel IH]; intros elements ty elementType v; [done|].
  cbn [arrayLoop].
  destruct (parseElement _ _) as [[elementType' v']|];
    [|intros [= <-]; right; left; by eexists].
  assert (forall ty',
    match Str.find_char "," elements with
    | None =>
        Some {| lr_type := ty'; lr_elementType := elementType';
                lr_vals := v'; lr_diags := [] |}
    | Some n =>
        if Str.size elements <=? n + 1
        then Some {| lr_type := ty'; lr_elementType := elementType';
                     lr_vals := v'; lr_diags := [] |}
        else arrayLoop fuel
               (trimmWhiteSpaces (Str.substr_from (n + 1) elements))
               ty' elementType' v'
    end = Some r ->
    lr_diags r = [] \/ (exists e, lr_diags r = [UnknownType e]) \/
    lr_diags r = [ArraySameType]) as Hnext.
  { intros ty'. destruct (Str.find_char "," elements) as [n|];
      [|intros [= <-]; by left].
    destruct (Str.size elements <=? n + 1); [intros [= <-]; by left|].
    apply IH. }
  case_bool_decide as Hty; [apply Hnext|].
  case_bool_decide as Hne; [|apply Hnext].
  intros [= <-]. by right; right.
Qed.

Lemma classify_diags (valString : string) :
  (classify valString).2 = [] \/
  (exists e, (classify valString).2 = [UnknownType e]) \/
  (classify valString).2 = [ArraySameType].
Proof.
  unfold classify.
  destruct (Str.empty valString); [by left|].
  destruct (parseAsString valString); [by left|].
  destruct (_ && _).
  - destruct (Str.size valString <? 3); [by left|].
    destruct (arrayLoop _ _ _ _ _) as [r|] eqn:Hloop; [|by left].
    cbn [snd]. by eapply arrayLoop_diags.
  - destruct (parseAsBoolean valString); [by left|].
    destruct (parseAsFloat valString); [by left|].
    destruct (parseAsInteger valString); by left.
Qed.

(** Whatever the line, the name [parseLine] returns has no colon and no
    space at either end. *)
Theorem parseLine_name_trimmed (line : string) :
  Str.find_char ":" (parseLine line).1.1.1 = None /\
  Str.front (parseLine line).1.1.1 <> space /\
  Str.back (parseLine line).1.1.1 <> Some space.
Proof.
  assert (Str.find_char ":" EmptyString = None /\
          Str.front EmptyString <> space /\
          Str.back EmptyString <> Some space) as Hempty by done.
  unfold parseLine. cbv zeta.
  set (trimmed := trimmLeadingTabs (trimmLeadingSpaces line)).
  destruct (Str.empty line); [exact Hempty|].
  destruct (Str.empty trimmed); [exact Hempty|].
  destruct (Ascii.eqb _ space); [exact Hempty|].
  case_bool_decide; [exact Hempty|].
  destruct (Str.find_char ":" trimmed) as [[|n]|] eqn:Hn;
    [exact Hempty| |exact Hempty].
  destruct (Str.empty (trimmWhiteSpaces _)); [exact Hempty|].
  destruct (classify _) as [c ds]. cbn [fst].
  apply find_char_before in Hn as (post & _ & Hnone & _).
  split; [by apply find_char_trimmWhiteSpaces | apply trimmWhiteSpaces_ends].
Qed.

(** The diagnostic about a missing parameter name (line 381) is never
    written: a name that starts at the first character of the trimmed
    line, which is not a space, is not empty after trimming. *)
Theorem parseLine_never_missing_param (line : string) :
  MissingParam ∉ (parseLine line).2.
Proof.
  assert (forall warn ds : list diag,
            MissingParam ∉ warn -> MissingParam ∉ ds ->
            MissingParam ∉ warn ++ ds) as Happ.
  { intros warn ds Hw Hd Hin. apply elem_of_app in Hin as [Hin|Hin]; tauto. }
  assert (forall d, d <> MissingParam -> MissingParam ∉ [d]) as Hone.
  { intros d Hd Hin. apply list_elem_of_singleton in Hin. congruence. }
  assert (MissingParam ∉ ([] : list diag)) as Hnil by apply not_elem_of_nil.
  unfold parseLine. cbv zeta.
  destruct (Str.empty line); [done|].
  destruct (trimmLeadingTabs (trimmLeadingSpaces line)) as [|c trimmed];
    [done|].
  cbn [Str.empty Str.front snd].
  destruct (Ascii.eqb_spec c space) as [->|Hc]; [by apply Hone|].
  set (warn := if _ && _ then [WarningMix] else []).
  assert (MissingParam ∉ warn) as Hwarn.
  { unfold warn. destruct (_ && _); [by apply Hone | done]. }
  clearbody warn.
  case_bool_decide; [done|].
  destruct (Str.find_char ":" (String c trimmed)) as [[|n]|];
    [apply Happ; [done | by apply Hone]
    | | apply Happ; [done | by apply Hone]].
  change (Str.substr 0 (S n) (String c trimmed))
    with (String c (Str.substr 0 n trimmed)).
  rewrite trimmWhiteSpaces_nonempty by done.
  match goal with |- context [classify ?v] =>
    pose proof (classify_diags v) as Hds; destruct (classify v) as [cfg ds]
  end.
  cbn [fst snd] in *. apply Happ; [done|].
  destruct Hds as [->|[[e ->]| ->]]; [done | by apply Hone | by apply Hone].
Qed.

(** A token that is not bracket-wrapped never gives a diagnostic, not
    even when no rule applies to it; its value has no type, or exactly
    one element of its type. *)
Theorem classify_scalar (tok : string) :
  ~ bracket_wrapped tok ->
  (classify tok).2 = [] /\
  (type (classify tok).1 = NO_VAL \/ elements_count (classify tok).1 = 1).
Proof.
  intros Hbr. unfold classify.
  destruct (Str.empty tok); [by split; [|left]|].
  destruct (parseAsString tok); [by split; [|right]|].
  assert (Ascii.eqb (Str.front tok) "[" &&
          bool_decide (Str.back tok = Some "]"%char) = false) as ->.
  { apply not_true_is_false. intros H. apply andb_prop in H as [H1 H2].
    apply Hbr. split; [by apply Ascii.eqb_eq | exact (bool_decide_eq_true_1 _ H2)]. }
  destruct (parseAsBoolean tok); [by split; [|right]|].
  destruct (parseAsFloat tok); [by split; [|right]|].
  destruct (parseAsInteger tok); [by split; [|right] | by split; [|left]].
Qed.

(** A token that is not bracket-wrapped is only classified as an
    integer when it contains a '.', [std::stof] throws on it and
    [std::stoi] converts it. *)
Theorem classify_integer_after_stof (tok : string) :
  ~ bracket_wrapped tok ->
  type (classify tok).1 = INTEGER ->
  contains "." tok /\ stof tok = None /\
  exists x, stoi tok = Some x /\ intVal (classify tok).1 = [x].
Proof.
  intros Hbr. unfold classify.
  destruct (Str.empty tok); [done|].
  destruct (parseAsString tok); [done|].
  assert (Ascii.eqb (Str.front tok) "[" &&
          bool_decide (Str.back tok = Some "]"%char) = false) as ->.
  { apply not_true_is_false. intros H. apply andb_prop in H as [H1 H2].
    apply Hbr. split; [by apply Ascii.eqb_eq | exact (bool_decide_eq_true_1 _ H2)]. }
  destruct (parseAsBoolean tok); [done|].
  unfold parseAsFloat, parseAsInteger.
  case_bool_decide as Hp; [|done].
  destruct (stof tok); [done|].
  destruct (stoi tok) as [x|]; [|done].
  intros _. split; [by apply find_contains|]. split; [done|]. by exists x.
Qed.

End LineResults.


(** ** Arrays (lines 403-497) *)

Lemma back_append (a b : string) :
  b <> EmptyString -> Str.back (a +:+ b) = Str.back b.
Proof.
  intros Hb. induction a as [|c a IH]; [done|].
  simpl. rewrite IH. destruct (a +:+ b) eqn:Hab; [|done].
  destruct a; [simpl in Hab; congruence | discriminate].
Qed.

Lemma set_back_snoc {A} (x p : A) (l : list A) :
  Vec.set_back x (l ++ [p]) = l ++ [x].
Proof.
  induction l as [|y l IH]; [done|].
  simpl. rewrite IH. by destruct l.
Qed.

Lemma pop_back_snoc {A} (p : A) (l : list A) : Vec.pop_back (l ++ [p]) = l.
Proof. apply removelast_last. Qed.

Section Arrays.

Context {platform : Platform}.

(** One parsed element, with its type. *)
Inductive scalar :=
  | SString (x : string)
  | SBoolean (x : bool)
  | SFloat (x : float)
  | SInteger (x : Z).

Definition scalar_type (s : scalar) : type_ :=
  match s with
  | SString _ => STRING
  | SBoolean _ => BOOLEAN
  | SFloat _ => FLOAT
  | SInteger _ => INTEGER
  end.

(** The chain of lines 421-443 (and 398, 498-515): string, Boolean,
    float, integer, in this order. *)
Definition parseScalar (element : string) : option scalar :=
  match parseAsString element with
  | Some x => Some (SString x)
  | None =>
  match parseAsBoolean element with
  | Some x => Some (SBoolean x)
  | None =>
  match parseAsFloat element with
  | Some x => Some (SFloat x)
  | None =>
  match parseAsInteger element with
  | Some x => Some (SInteger x)
  | None => None
  end end end end.

Definition strings_of (ss : list scalar) : list string :=
  omap (fun s => match s with SString x => Some x | _ => None end) ss.
Definition bools_of (ss : list scalar) : list bool :=
  omap (fun s => match s with SBoolean x => Some x | _ => None end) ss.
Definition floats_of (ss : list scalar) : list float :=
  omap (fun s => match s with SFloat x => Some x | _ => None end) ss.
Definition ints_of (ss : list scalar) : list Z :=
  omap (fun s => match s with SInteger x => Some x | _ => None end) ss.

(** The scratch vectors after the elements [ss] have been parsed: each
    ends with its placeholder. *)
Definition vals_after (ss : list scalar) : vals :=
  {| stringVals := strings_of ss ++ [EmptyString];
     boolVals := bools_of ss ++ [false];
     floatVals := floats_of ss ++ [float_zero];
     intVals := ints_of ss ++ [0%Z] |}.

(** The typed value that holds the elements [ss]. *)
Definition array_value (raw : string) (ty : type_) (ss : list scalar)
    : config_struct :=
  {| type := ty; rawString := raw; stringVal := strings_of ss;
     boolVal := bools_of ss; floatVal := floats_of ss;
     intVal := ints_of ss |}.

Lemma parseElement_scalar (element : string) (ss : list scalar) :
  parseElement element (vals_after ss)
  = (fun s => (scalar_type s, vals_after (ss ++ [s]))) <$> parseScalar element.
Proof.
  unfold parseElement, parseScalar.
  destruct (parseAsString element); [|destruct (parseAsBoolean element);
    [|destruct (parseAsFloat element);
      [|destruct (parseAsInteger element); [|done]]]].
  all: cbn [fmap option_fmap option_map scalar_type];
    unfold vals_after, Vec.push_back, strings_of, bools_of, floats_of, ints_of;
    cbn [stringVals boolVals floatVals intVals];
    rewrite !omap_app, set_back_snoc; simpl; by rewrite !app_nil_r.
Qed.

(** An element as it stands between two commas: not empty, no comma,
    no space at either end. *)
Definition plain_element (e : string) : Prop :=
  Str.front e <> space /\ Str.back e <> Some space /\
  Str.find_char "," e = None.

(** The elements [es], each after its number of spaces, separated by
    commas. *)
Fixpoint joinElements (es : list (nat * string)) : string :=
  match es with
  | [] => EmptyString
  | (p, e) :: es' =>
      Str.replicate p space +:+ e +:+
      match es' with
      | [] => EmptyString
      | _ :: _ => String "," (joinElements es')
      end
  end.

Definition unpad_first (es : list (nat * string)) : list (nat * string) :=
  match es with
  | [] => []
  | (_, e) :: es' => (0, e) :: es'
  end.

(** [e] parses to the scalar [s], of type [ty]. *)
Definition element_parses (ty : type_) (pe : nat * string) (s : scalar)
    : Prop :=
  plain_element pe.2 /\ parseScalar pe.2 = Some s /\ scalar_type s = ty.

Lemma parseScalar_nonempty (e : string) (s : scalar) :
  parseScalar e = Some s -> e <> EmptyString.
Proof. by intros H ->. Qed.

Lemma joinElements_back ty es ss :
  Forall2 (element_parses ty) es ss -> es <> [] ->
  joinElements es <> EmptyString /\
  Str.back (joinElements es) <> Some space.
Proof.
  induction 1 as [|[p e] s es ss (Hplain & Hs & _) Hall IH]; [done|].
  intros _. apply parseScalar_nonempty in Hs. simpl in Hs.
  destruct Hplain as (_ & Hback & _). simpl in Hback.
  assert (forall t, e +:+ t <> EmptyString) as Hne
    by (intros t; destruct e; [done | discriminate]).
  cbn [joinElements]. destruct es as [|pe es].
  - rewrite append_empty_r. split.
    + destruct (Str.replicate p space); [done | discriminate].
    + by rewrite back_append.
  - destruct IH as [IH1 IH2]; [done|]. split.
    + destruct (Str.replicate p space); [apply Hne | discriminate].
    + rewrite back_append by apply Hne.
      rewrite back_append by discriminate.
      change (String "," (joinElements (pe :: es)))
        with (String "," EmptyString +:+ joinElements (pe :: es)).
      by rewrite back_append.
Qed.

Lemma trimmWhiteSpaces_joinElements ty es ss :
  Forall2 (element_parses ty) es ss -> es <> [] ->
  trimmWhiteSpaces (joinElements es) = joinElements (unpad_first es).
Proof.
  intros Hall Hne.
  destruct (joinElements_back ty es ss Hall Hne) as [Hne' Hback].
  destruct Hall as [|[p e] s es ss (Hplain & Hs & _) Hall]; [done|].
  unfold trimmWhiteSpaces.
  assert (joinElements ((p, e) :: es)
          = Str.replicate p space +:+ joinElements (unpad_first ((p, e) :: es)))
    as Hj by done.
  assert (Str.front (joinElements (unpad_first ((p, e) :: es))) <> space)
    as Hfront.
  { apply parseScalar_nonempty in Hs. destruct Hplain as (Hf & _).
    simpl in *. by destruct e. }
  rewrite Hj, trimmLeadingSpaces_indent by done.
  apply trimmTrailingSpaces_fixed.
  rewrite Hj in Hback.
  destruct (joinElements (unpad_first ((p, e) :: es))) eqn:Hu.
  - done.
  - by rewrite back_append in Hback.
Qed.

Lemma joinElements_cons (p : nat) (e : string) (pe : nat * string)
    (es : list (nat * string)) :
  joinElements ((p, e) :: pe :: es)
  = (Str.replicate p space +:+ e) +:+ String "," (joinElements (pe :: es)).
Proof. cbn [joinElements]. by rewrite append_assoc. Qed.

Lemma unpad_first_parses ty es ss :
  Forall2 (element_parses ty) es ss ->
  Forall2 (element_parses ty) (unpad_first es) ss.
Proof. destruct 1 as [|[p e] s es ss H Hall]; by constructor. Qed.

(** The loop on well-formed elements of one type: all of them are
    accumulated, and the loop is left without diagnostic. *)
Lemma arrayLoop_elements (ty : type_) (ss : list scalar) :
  forall (es : list (nat * string)) (acc : list scalar) (ty0 et : type_)
         (fuel : nat),
    Forall2 (element_parses ty) es ss -> es <> [] ->
    ty0 = NO_VAL \/ ty0 = ty ->
    Str.size (joinElements es) < fuel ->
    arrayLoop fuel (joinElements es) ty0 et (vals_after acc)
    = Some {| lr_type := ty; lr_elementType := ty;
              lr_vals := vals_after (acc ++ ss); lr_diags := [] |}.
Proof.
  induction ss as [|s ss IH]; intros es acc ty0 et fuel Hall Hne Hty0 Hfuel;
    [by inversion Hall; subst|].
  destruct es as [|[p e] es]; [done|].
  apply Forall2_cons_1 in Hall as [(Hplain & Hs & Hty) Hall].
  simpl in Hplain, Hs. destruct Hplain as (Hfront & Hback & Hcomma).
  destruct fuel as [|fuel]; [lia|].
  assert (ty <> NO_VAL) as HtyN by (rewrite <- Hty; by destruct s).
  assert (trimmWhiteSpaces (Str.replicate p space +:+ e) = e) as Htrim.
  { unfold trimmWhiteSpaces. rewrite trimmLeadingSpaces_indent by done.
    by apply trimmTrailingSpaces_fixed. }
  assert (Str.find_char "," (Str.replicate p space +:+ e) = None) as Hnone.
  { apply find_char_append_None. split; [by apply find_char_replicate | done]. }
  destruct es as [|pe es].
  - apply Forall2_nil_inv_l in Hall as ->.
    cbn [arrayLoop joinElements].
    rewrite append_empty_r, Hnone, Htrim, parseElement_scalar, Hs.
    cbn [fmap option_fmap option_map]. rewrite Hty.
    destruct Hty0 as [->| ->].
    + by rewrite bool_decide_true.
    + rewrite bool_decide_false by done. by rewrite bool_decide_false by tauto.
  - rewrite joinElements_cons in Hfuel |- *. cbn [arrayLoop].
    rewrite (find_char_append "," _ _ Hnone).
    rewrite StrFacts.substr_0_append, Htrim, parseElement_scalar, Hs.
    cbn [fmap option_fmap option_map]. rewrite Hty.
    assert (joinElements (pe :: es) <> EmptyString) as Hrest
      by (by eapply joinElements_back).
    assert ((Str.size ((Str.replicate p space +:+ e) +:+
                       String "," (joinElements (pe :: es)))
             <=? Str.size (Str.replicate p space +:+ e) + 1) = false) as ->.
    { apply Nat.leb_gt. rewrite !StrFacts.size_append.
      destruct (joinElements (pe :: es)); [done|].
      unfold Str.size. cbn [String.length]. lia. }
    assert (Str.substr_from (Str.size (Str.replicate p space +:+ e) + 1)
              ((Str.replicate p space +:+ e) +:+
               String "," (joinElements (pe :: es)))
            = joinElements (pe :: es)) as ->.
    { change (String "," (joinElements (pe :: es)))
        with (String "," EmptyString +:+ joinElements (pe :: es)).
      rewrite <- append_assoc.
      replace (Str.size (Str.replicate p space +:+ e) + 1)
        with (Str.size ((Str.replicate p space +:+ e) +:+ String "," EmptyString))
        by (by rewrite StrFacts.size_append).
      apply substr_from_append. }
    rewrite (trimmWhiteSpaces_joinElements ty (pe :: es) ss) by done.
    assert (arrayLoop fuel (joinElements (unpad_first (pe :: es))) ty ty
              (vals_after (acc ++ [s]))
            = Some {| lr_type := ty; lr_elementType := ty;
                      lr_vals := vals_after (acc ++ s :: ss);
                      lr_diags := [] |}) as Hloop.
    { rewrite (IH (unpad_first (pe :: es)) (acc ++ [s]) ty ty fuel).
      - by rewrite <- app_assoc.
      - by apply unpad_first_parses.
      - by destruct pe.
      - by right.
      - rewrite <- (trimmWhiteSpaces_joinElements ty (pe :: es) ss) by done.
        pose proof (size_trimmWhiteSpaces (joinElements (pe :: es))).
        rewrite (StrFacts.size_append (Str.replicate p space +:+ e)) in Hfuel.
        unfold Str.size in *. cbn [String.length] in Hfuel. lia. }
    destruct Hty0 as [->| ->].
    + by rewrite bool_decide_true.
    + rewrite bool_decide_false by done. by rewrite bool_decide_false by tauto.
Qed.

Lemma scalars_of_type (ty : type_) (ss : list scalar) :
  Forall (fun s => scalar_type s = ty) ss ->
  (ty <> STRING -> strings_of ss = []) /\
  (ty <> BOOLEAN -> bools_of ss = []) /\
  (ty <> FLOAT -> floats_of ss = []) /\
  (ty <> INTEGER -> ints_of ss = []).
Proof.
  induction 1 as [|s ss Hs Hall (IH1 & IH2 & IH3 & IH4)]; [done|].
  unfold strings_of, bools_of, floats_of, ints_of in *.
  destruct s; simpl in *; subst ty; repeat split; intros Hne;
    try done; auto.
Qed.

(** The classifier on a bracketed list of well-formed elements of one
    type. *)
Lemma classify_joinElements (ty : type_) (es : list (nat * string))
    (ss : list scalar) :
  Forall2 (element_parses ty) es ss -> es <> [] ->
  classify (String "[" (joinElements es +:+ String "]" EmptyString))
  = (array_value (String "[" (joinElements es +:+ String "]" EmptyString))
       ty ss, []).
Proof.
  intros Hall Hne.
  destruct (joinElements_back ty es ss Hall Hne) as [Hne' _].
  set (tok := String "[" (joinElements es +:+ String "]" EmptyString)).
  assert (Str.size tok = S (S (Str.size (joinElements es)))) as Hsize.
  { unfold tok.
    change (Str.size (String "[" (joinElements es +:+ String "]" EmptyString)))
      with (S (Str.size (joinElements es +:+ String "]" EmptyString))).
    rewrite StrFacts.size_append.
    change (Str.size (String "]" EmptyString)) with 1. lia. }
  assert (Str.back tok = Some "]"%char) as Hback.
  { unfold tok. pose proof (back_snoc (joinElements es) "]") as Hb.
    simpl. rewrite Hb. by destruct (joinElements es +:+ String "]" EmptyString). }
  assert (Str.empty tok = false) as Hempty by done.
  assert (parseAsString tok = None) as Hstr.
  { apply parseAsString_None. by intros (_ & Hf & _). }
  assert (Ascii.eqb (Str.front tok) "[" &&
          bool_decide (Str.back tok = Some "]"%char) = true) as Hbr.
  { rewrite bool_decide_true by done. done. }
  assert ((Str.size tok <? 3) = false) as Hlt.
  { apply Nat.ltb_ge. rewrite Hsize.
    destruct (joinElements es); [done|]. unfold Str.size. simpl. lia. }
  assert (Str.substr 1 (Str.size tok - 2) tok = joinElements es) as Helems.
  { rewrite Hsize.
    replace (S (S (Str.size (joinElements es))) - 2)
      with (Str.size (joinElements es)) by lia.
    unfold tok, Str.substr. simpl.
    destruct (Str.size (joinElements es)) eqn:Hs.
    - destruct (joinElements es); [done | discriminate].
    - rewrite <- Hs. apply StrFacts.substr_0_append. }
  clearbody tok.
  unfold classify. rewrite Hempty, Hstr, Hbr, Hlt, Helems.
  rewrite (arrayLoop_elements ty ss es [] NO_VAL NO_VAL) by (auto; lia).
  cbn [lr_type lr_elementType lr_vals lr_diags app].
  assert (Forall (fun s => scalar_type s = ty) ss) as Htypes.
  { clear -Hall. induction Hall as [|pe s es ss (_ & _ & Hs) _ IH];
      by constructor. }
  destruct (scalars_of_type ty ss Htypes) as (H1 & H2 & H3 & H4).
  assert (ty <> NO_VAL) as HtyN.
  { destruct Hall as [|pe s es ss (_ & _ & Hs) _]; [done|].
    rewrite <- Hs. by destruct s. }
  unfold copyArray, with_type, array_value, vals_after.
  cbn [type rawString stringVal boolVal floatVal intVal
       stringVals boolVals floatVals intVals].
  destruct ty; [done|..]; rewrite pop_back_snoc;
    rewrite ?H1, ?H2, ?H3, ?H4 by done; done.
Qed.

(** A bracketed list of elements that all parse to one type is
    classified as the array of their values, in order, without
    diagnostic.  The elements are separated by commas, each may follow
    any number of spaces, and none has a comma or a space at its ends. *)
Theorem classify_array (ty : type_) (es : list (nat * string))
    (ss : list scalar) :
  Forall2 (element_parses ty) es ss -> es <> [] ->
  classify (String "[" (joinElements es +:+ String "]" EmptyString))
  = (array_value (String "[" (joinElements es +:+ String "]" EmptyString))
       ty ss, []).
Proof. apply classify_joinElements. Qed.




End Arrays.


(** ** The dictionary and the stacks of [parseFile] (lines 534-600) *)


Section FileProperties.

Context {platform : Platform}.

(** [line] is accepted by [parseFile]: it has a name and a value with a
    type (line 557). *)
Definition accepted (line : string) : Prop :=
  Str.empty (parseLine line).1.1.1 = false /\
  type (parseLine line).1.1.2 <> NO_VAL.

(** [parseFile] ignores [line]: the test of line 557 holds. *)
Definition ignored (line : string) : Prop :=
  Str.empty (parseLine line).1.1.1
  || bool_decide (type (parseLine line).1.1.2 = NO_VAL) = true.

Lemma accepted_not_ignored (line : string) :
  accepted line ->
  Str.empty (parseLine line).1.1.1
  || bool_decide (type (parseLine line).1.1.2 = NO_VAL) = false.
Proof. intros [-> Hty]. by rewrite bool_decide_false. Qed.

(** What an accepted line does to the state. *)
Lemma parseStep_accepted ub (st : parser_state) (line : string) :
  accepted line ->
  let name := (parseLine line).1.1.1 in
  let r := rewindStack ub (parseLine line).1.2 (paddingHistory st)
             (paramLengths st) (fullParamName st) in
  let fpn := rw_fullParamName r +:+
             (if Str.empty (rw_fullParamName r) then name
              else "." +:+ name) in
  parseStep ub st line
  = {| config := config_insert fpn (parseLine line).1.1.2 (config st);
       fullParamName := fpn;
       paramLengths := (1 + Str.size name) :: rw_paramLengths r;
       paddingHistory := (parseLine line).1.2 :: rw_paddingHistory r;
       diags := diags st ++ (parseLine line).2;
       faults := faults st ++ rw_faults r |}.
Proof.
  intros Hacc. pose proof (accepted_not_ignored line Hacc) as Hno.
  destruct Hacc as [_ Hty]. unfold parseStep.
  destruct (parseLine line) as [[pvPair currentPadding] ds].
  cbn [fst snd] in *. rewrite Hno. by rewrite bool_decide_true.
Qed.

Lemma parseStep_ignored ub (st : parser_state) (line : string) :
  ignored line ->
  parseStep ub st line
  = {| config := config st; fullParamName := fullParamName st;
       paramLengths := paramLengths st; paddingHistory := paddingHistory st;
       diags := diags st ++ (parseLine line).2; faults := faults st |}.
Proof.
  unfold ignored, parseStep.
  destruct (parseLine line) as [[pvPair currentPadding] ds].
  cbn [fst snd]. by intros ->.
Qed.

Lemma accepted_or_ignored (line : string) : accepted line \/ ignored line.
Proof.
  unfold accepted, ignored.
  destruct (Str.empty _); [by right|].
  case_bool_decide; [by right | by left].
Qed.

Lemma append_nonempty_r (a b : string) :
  b <> EmptyString -> a +:+ b <> EmptyString.
Proof. intros Hb. destruct a; [done | discriminate]. Qed.

(** The full name after an accepted line is not empty. *)
Lemma parseStep_accepted_name ub (st : parser_state) (line : string) :
  accepted line -> fullParamName (parseStep ub st line) <> EmptyString.
Proof.
  intros Hacc. rewrite parseStep_accepted by done. cbn [fullParamName].
  destruct Hacc as [Hname _]. apply append_nonempty_r.
  destruct (Str.empty (rw_fullParamName _)); [|discriminate].
  by destruct ((parseLine line).1.1.1).
Qed.

Lemma parseLines_invariant (P : parser_state -> Prop) :
  (forall ub st line, P st -> P (parseStep ub st line)) ->
  forall ub i st lines, P st -> P (parseLines ub i st lines).
Proof.
  intros Hstep ub i st lines. revert i st.
  induction lines as [|line lines IH]; intros i st Hst; [done|].
  simpl. apply IH. by apply Hstep.
Qed.

(** Every entry of the dictionary has a type and a key that is not
    empty: a value without type is never stored. *)
Theorem config_entries_typed (ub : nat -> nat) (lines : list string) :
  map_Forall (fun key value => key <> EmptyString /\ type value <> NO_VAL)
    (config (parseDocument ub lines)).
Proof.
  apply (parseLines_invariant
           (fun st => map_Forall
                        (fun key value =>
                           key <> EmptyString /\ type value <> NO_VAL)
                        (config st))); [|apply map_Forall_empty].
  intros ub' st line Hst.
  destruct (accepted_or_ignored line) as [Hacc|Hign].
  - pose proof (parseStep_accepted_name ub' st line Hacc) as Hname.
    rewrite parseStep_accepted in * by done. cbn [config fullParamName] in *.
    unfold config_insert. destruct (config st !! _) eqn:Hkey; [done|].
    apply map_Forall_insert; [done|]. split; [|done].
    split; [done | by destruct Hacc].
  - by rewrite parseStep_ignored.
Qed.

(** The dictionary only grows: the entries read from the first lines of
    a file are in the dictionary of the whole file, with the same
    values. *)
Theorem config_grows (ub : nat -> nat) (lines more : list string) :
  config (parseDocument ub lines) ⊆ config (parseDocument ub (lines ++ more)).
Proof.
  apply map_subseteq_spec. intros key value Hkey.
  unfold parseDocument. rewrite parseLines_app.
  by apply parseLines_config_stable.
Qed.

(** *** Ignored lines *)

(** The state without its diagnostics. *)
Definition core (st : parser_state)
    : gmap string config_struct * string * list nat * list nat * list fault :=
  (config st, fullParamName st, paramLengths st, paddingHistory st, faults st).

Lemma parseStep_core ub (st1 st2 : parser_state) (line : string) :
  core st1 = core st2 ->
  core (parseStep ub st1 line) = core (parseStep ub st2 line).
Proof.
  unfold core. intros [= Hc Hf Hl Hp Hfa].
  destruct (accepted_or_ignored line) as [Hacc|Hign].
  - rewrite !parseStep_accepted by done. cbn -[rewindStack config_insert].
    by rewrite Hc, Hf, Hl, Hp, Hfa.
  - rewrite !parseStep_ignored by done. simpl. congruence.
Qed.

Lemma parseLines_core ub i (st1 st2 : parser_state) (lines : list string) :
  core st1 = core st2 ->
  core (parseLines ub i st1 lines) = core (parseLines ub i st2 lines).
Proof.
  revert i st1 st2. induction lines as [|line lines IH]; intros i st1 st2 H;
    [done|].
  simpl. apply IH. by apply parseStep_core.
Qed.

Lemma parseLines_parallel ub i (st : parser_state) (lines : list string) :
  stacks_parallel st -> stacks_parallel (parseLines ub i st lines).
Proof.
  apply (parseLines_invariant stacks_parallel).
  intros ub' st' line. apply parseStep_parallel.
Qed.

(** A line that [parseFile] ignores (a blank line, a comment, a
    rejected line, a line without value) can be removed from the file:
    the dictionary, the full name and the stacks at the end are the
    same. *)
Theorem ignored_line_removable (ub : nat -> nat) (before after : list string)
    (line : string) :
  ignored line ->
  core (parseDocument ub (before ++ line :: after))
  = core (parseDocument ub (before ++ after)).
Proof.
  intros Hign. unfold parseDocument. rewrite !parseLines_app.
  cbn [parseLines]. set (st := parseLines ub 0 parser_init before).
  assert (stacks_parallel st) as Hst by (by apply parseLines_parallel).
  rewrite (parseLines_ub ub ub (S (0 + length before)) (0 + length before)).
  2:{ by apply parseStep_parallel. }
  apply parseLines_core. by rewrite parseStep_ignored.
Qed.

(** *** The stack of indentations *)

Lemma Sorted_gt_tail (x : nat) (l : list nat) :
  Sorted gt (x :: l) -> Sorted gt l.
Proof. intros H. by apply Sorted_inv in H as [H _]. Qed.

Lemma rewind_sorted ub currentPadding ph pl fpn :
  Sorted gt ph ->
  Sorted gt (currentPadding
             :: rw_paddingHistory (rewind ub currentPadding ph pl fpn)).
Proof.
  revert pl fpn. induction ph as [|p ph IH]; intros pl fpn Hs.
  - by repeat constructor.
  - apply Sorted_gt_tail in Hs. cbn [rewind].
    destruct pl as [|l pl]; cbn [tail].
    all: destruct ph as [|top ph];
      [destruct (ub <? currentPadding); by repeat constructor|].
    all: destruct (top <? currentPadding) eqn:Htop; cbn [rw_paddingHistory];
      [apply Nat.ltb_lt in Htop; constructor; [exact Hs | by constructor]
      | by apply IH].
Qed.

Lemma rewindStack_sorted ub currentPadding ph pl fpn :
  Sorted gt ph ->
  Sorted gt (currentPadding
             :: rw_paddingHistory (rewindStack ub currentPadding ph pl fpn)).
Proof.
  intros Hs. unfold rewindStack. destruct ph as [|top ph'].
  - by repeat constructor.
  - destruct (currentPadding <=? top) eqn:Htop; [by apply rewind_sorted|].
    apply Nat.leb_gt in Htop. constructor; [exact Hs | by constructor].
Qed.

(** The stack of indentations is strictly increasing from its bottom to
    its top, whatever the file: the rewind pops every frame that is not
    strictly less indented than the new line. *)
Theorem paddingHistory_increasing (ub : nat -> nat) (lines : list string) :
  Sorted gt (paddingHistory (parseDocument ub lines)).
Proof.
  apply (parseLines_invariant (fun st => Sorted gt (paddingHistory st)));
    [|constructor].
  intros ub' st line Hst.
  destruct (accepted_or_ignored line) as [Hacc|Hign].
  - rewrite parseStep_accepted by done. by apply rewindStack_sorted.
  - by rewrite parseStep_ignored.
Qed.

(** *** The stack of lengths *)

Lemma rewind_length_fault ub currentPadding ph pl fpn :
  length ph = length pl ->
  Forall (fun f => f <> BackOfEmptyParamLengths)
    (rw_faults (rewind ub currentPadding ph pl fpn)).
Proof.
  revert pl fpn. induction ph as [|p ph IH]; intros pl fpn Hlen;
    [by constructor|].
  destruct pl as [|l pl]; [done|]. simpl in Hlen.
  cbn [rewind tail].
  set (f2 := if Str.size fpn <? l then [SizeUnderflow] else []).
  assert (Forall (fun f => f <> BackOfEmptyParamLengths) f2) as Hf2.
  { unfold f2. destruct (_ <? _); by repeat constructor. }
  destruct ph as [|top ph].
  - destruct (ub <? currentPadding); cbn [rw_faults rewind];
      rewrite ?Forall_app; repeat split; by repeat constructor.
  - destruct (top <? currentPadding); cbn [rw_faults];
      rewrite ?Forall_app; repeat split; try by repeat constructor.
    apply IH. lia.
Qed.

(** [paramLengths] and [paddingHistory] always have the same size, and
    the rewind loop never reads [paramLengths.back()] on an empty
    vector. *)
Theorem paramLengths_never_empty_read (ub : nat -> nat)
    (lines : list string) :
  length (paddingHistory (parseDocument ub lines))
  = length (paramLengths (parseDocument ub lines)) /\
  BackOfEmptyParamLengths ∉ faults (parseDocument ub lines).
Proof.
  cut (stacks_parallel (parseDocument ub lines) /\
       Forall (fun f => f <> BackOfEmptyParamLengths)
         (faults (parseDocument ub lines))).
  { intros [Hpar Hf]. split; [done|]. intros Hin.
    by apply (proj1 (Forall_forall _ _) Hf _ Hin). }
  apply (parseLines_invariant
           (fun st => stacks_parallel st /\
                      Forall (fun f => f <> BackOfEmptyParamLengths)
                        (faults st))).
  2:{ split; [done | constructor]. }
  intros ub' st line [Hpar Hf]. split; [by apply parseStep_parallel|].
  destruct (accepted_or_ignored line) as [Hacc|Hign].
  - rewrite parseStep_accepted by done. cbn [faults].
    apply Forall_app. split; [done|]. unfold rewindStack.
    destruct (paddingHistory st) as [|top ph] eqn:Hph; [constructor|].
    destruct (_ <=? _); [|constructor].
    apply rewind_length_fault. by rewrite <- Hph.
  - by rewrite parseStep_ignored.
Qed.

(** *** Parent and child *)

Lemma parseStep_child ub (st : parser_state) (line : string)
    (top : nat) (ph : list nat) :
  accepted line -> paddingHistory st = top :: ph ->
  top < (parseLine line).1.2 -> fullParamName st <> EmptyString ->
  fullParamName (parseStep ub st line)
  = fullParamName st +:+ "." +:+ (parseLine line).1.1.1.
Proof.
  intros Hacc Hph Htop Hname. rewrite parseStep_accepted by done.
  cbn [fullParamName]. unfold rewindStack. rewrite Hph.
  assert (((parseLine line).1.2 <=? top) = false) as ->
    by (apply Nat.leb_gt; lia).
  cbn [rw_fullParamName]. by destruct (fullParamName st).
Qed.

(** When an accepted line is followed by an accepted line that is
    indented deeper, the full name of the second is the full name of
    the first, a dot, and the name of the second. *)
Theorem child_extends_parent (ub : nat -> nat) (lines : list string)
    (i : nat) (parent child : string) :
  lines !! i = Some parent -> lines !! S i = Some child ->
  accepted parent -> accepted child ->
  (parseLine parent).1.2 < (parseLine child).1.2 ->
  fullParamName (state_before ub lines (S (S i)))
  = fullParamName (state_before ub lines (S i)) +:+ "."
    +:+ (parseLine child).1.1.1.
Proof.
  intros Hp Hc Hap Hac Hdeeper.
  rewrite (state_before_S ub lines (S i) child Hc).
  eapply parseStep_child; [done| |exact Hdeeper|].
  - rewrite (state_before_S ub lines i parent Hp).
    rewrite parseStep_accepted by done. reflexivity.
  - rewrite (state_before_S ub lines i parent Hp).
    by apply parseStep_accepted_name.
Qed.

End FileProperties.


(** ** The full name through the rewind (lines 562-583) *)

Lemma find_char_lt (c : ascii) (s : string) (n : nat) :
  Str.find_char c s = Some n -> n < Str.size s.
Proof.
  intros Hn. apply find_char_before in Hn as (post & Hs & _ & Hsz).
  rewrite Hs, StrFacts.size_append, Hsz. unfold Str.size. simpl. lia.
Qed.

(** The pop of a frame whose recorded length is the length of the last
    segment removes this segment from the full name. *)
Lemma pop_segment (prefix segment : string) :
  (Z.of_nat (Str.size (prefix +:+ segment)) < 2 ^ 64)%Z ->
  Str.substr 0
    (Z.to_nat
       (Z.min (size_t_sub (Str.size (prefix +:+ segment)) (Str.size segment))
              (Z.of_nat (Str.size (prefix +:+ segment)))))
    (prefix +:+ segment)
  = prefix
  /\ (Str.size (prefix +:+ segment) <? Str.size segment) = false.
Proof.
  intros Hbound. rewrite StrFacts.size_append in *.
  assert (size_t_sub (Str.size prefix + Str.size segment) (Str.size segment)
          = Z.of_nat (Str.size prefix)) as ->.
  { unfold size_t_sub. rewrite Z.mod_small; lia. }
  split; [|apply Nat.ltb_ge; lia].
  rewrite Z.min_l by lia. rewrite Nat2Z.id. apply StrFacts.substr_0_append.
Qed.

Section FullName.

Context {platform : Platform}.

(** The name of an accepted line and its colon fit in the line. *)
Lemma accepted_name_size (line : string) :
  accepted line -> Str.size (parseLine line).1.1.1 < Str.size line.
Proof.
  intros [Hname _]. revert Hname. unfold parseLine. cbv zeta.
  pose proof (parseLine_padding line) as Hpad.
  set (trimmed := trimmLeadingTabs (trimmLeadingSpaces line)) in *.
  destruct (Str.empty line); [done|].
  destruct (Str.empty trimmed); [done|].
  destruct (Ascii.eqb _ space); [done|].
  case_bool_decide; [done|].
  destruct (Str.find_char ":" trimmed) as [[|n]|] eqn:Hn; [done| |done].
  destruct (Str.empty (trimmWhiteSpaces _)); [done|].
  destruct (classify _) as [c ds]. cbn [fst]. intros _.
  pose proof (find_char_lt _ _ _ Hn) as Hlt.
  pose proof (size_trimmWhiteSpaces (Str.substr 0 (S n) trimmed)) as Htrim.
  rewrite StrFacts.size_substr in Htrim. lia.
Qed.

(** Three accepted lines in a row, a parent, a child that is indented
    deeper, and a line that is indented deeper than the parent and not
    deeper than the child: the rewind replaces the name of the child by
    the name of the third line, which becomes a child of the same
    parent. *)
Theorem sibling_replaces_last_segment (ub : nat -> nat)
    (lines : list string) (i : nat) (parent child sibling : string) :
  lines !! i = Some parent -> lines !! S i = Some child ->
  lines !! S (S i) = Some sibling ->
  accepted parent -> accepted child -> accepted sibling ->
  (parseLine parent).1.2 < (parseLine sibling).1.2 ->
  (parseLine sibling).1.2 <= (parseLine child).1.2 ->
  (Z.of_nat (Str.size (fullParamName (state_before ub lines (S (S i)))))
   < 2 ^ 64)%Z ->
  fullParamName (state_before ub lines (S (S (S i))))
  = fullParamName (state_before ub lines (S i)) +:+ "."
    +:+ (parseLine sibling).1.1.1.
Proof.
  intros Hp Hc Hs Hap Hac Has Hlow Hhigh.
  rewrite (state_before_S ub lines (S (S i)) sibling Hs).
  rewrite (state_before_S ub lines (S i) child Hc).
  rewrite (state_before_S ub lines i parent Hp).
  set (st := state_before ub lines i).
  pose proof (parseStep_accepted_name (ub i) st parent Hap) as Hname.
  set (st1 := parseStep (ub i) st parent) in *.
  assert (exists ph, paddingHistory st1 = (parseLine parent).1.2 :: ph)
    as [ph Hph].
  { unfold st1. rewrite parseStep_accepted by done. by eexists. }
  assert (parseStep (ub (S i)) st1 child
          = {| config :=
                 config_insert
                   (fullParamName st1 +:+ "." +:+ (parseLine child).1.1.1)
                   (parseLine child).1.1.2 (config st1);
               fullParamName :=
                 fullParamName st1 +:+ "." +:+ (parseLine child).1.1.1;
               paramLengths :=
                 (1 + Str.size (parseLine child).1.1.1) :: paramLengths st1;
               paddingHistory :=
                 (parseLine child).1.2 :: paddingHistory st1;
               diags := diags st1 ++ (parseLine child).2;
               faults := faults st1 |}) as ->.
  { rewrite parseStep_accepted by done. unfold rewindStack. rewrite Hph.
    assert (((parseLine child).1.2 <=? (parseLine parent).1.2) = false) as ->
      by (apply Nat.leb_gt; lia).
    cbn [rw_fullParamName rw_paramLengths rw_paddingHistory rw_faults].
    rewrite app_nil_r. by destruct (fullParamName st1). }
  cbn [fullParamName]. intros Hbound.
  rewrite parseStep_accepted by done.
  cbn [fullParamName paddingHistory paramLengths].
  unfold rewindStack.
  assert (((parseLine sibling).1.2 <=? (parseLine child).1.2) = true) as ->
    by (by apply Nat.leb_le).
  rewrite Hph. cbn [rewind tail].
  assert (((parseLine parent).1.2 <? (parseLine sibling).1.2) = true) as ->
    by (by apply Nat.ltb_lt).
  cbn [rw_fullParamName].
  change (1 + Str.size (parseLine child).1.1.1)
    with (Str.size ("." +:+ (parseLine child).1.1.1)).
  destruct (pop_segment (fullParamName st1)
              ("." +:+ (parseLine child).1.1.1) Hbound) as [-> _].
  by destruct (fullParamName st1).
Qed.

(** *** The first accepted name *)

(** The full name made of the first accepted name [n1] and the names
    of the open frames above it, the innermost first. *)
Fixpoint path (n1 : string) (names : list string) : string :=
  match names with
  | [] => n1
  | n :: names => path n1 names +:+ "." +:+ n
  end.

(** The lengths recorded for these frames; [bottom] tells whether the
    frame of [n1] itself is still on the stack. *)
Definition lengths (n1 : string) (bottom : bool) (names : list string)
    : list nat :=
  map (fun n => 1 + Str.size n) names
  ++ (if bottom then [1 + Str.size n1] else []).

Lemma path_prefix (n1 : string) (names : list string) :
  exists rest, path n1 names = n1 +:+ rest.
Proof.
  induction names as [|n names [rest IH]].
  - exists EmptyString. by rewrite append_empty_r.
  - exists (rest +:+ "." +:+ n). simpl. by rewrite IH, append_assoc.
Qed.

Lemma path_nonempty (n1 : string) (names : list string) :
  n1 <> EmptyString -> path n1 names <> EmptyString.
Proof.
  intros Hn. destruct (path_prefix n1 names) as [rest ->].
  destruct n1; [done | discriminate].
Qed.

Lemma rewind_path ub currentPadding (n1 : string) (names : list string) :
  forall (bottom : bool) (ph : list nat),
    length ph = length (lengths n1 bottom names) ->
    (Z.of_nat (Str.size (path n1 names)) < 2 ^ 64)%Z ->
    exists bottom' names',
      rw_fullParamName
        (rewind ub currentPadding ph (lengths n1 bottom names) (path n1 names))
      = path n1 names' /\
      rw_paramLengths
        (rewind ub currentPadding ph (lengths n1 bottom names) (path n1 names))
      = lengths n1 bottom' names' /\
      Str.size (path n1 names') <= Str.size (path n1 names).
Proof.
  induction names as [|n names IH]; intros bottom ph Hlen Hbound.
  - destruct bottom; simpl in Hlen.
    + destruct ph as [|p [|? ?]]; try done.
      unfold lengths, path. cbn [map app].
      rewrite rewind_bottom by done. by exists false, [].
    + destruct ph; [|done]. by exists false, [].
  - destruct ph as [|p ph]; [done|].
    unfold lengths in *. cbn [map app length] in Hlen.
    cbn [path] in Hbound. cbn [map app path rewind tail].
    change (1 + Str.size n) with (Str.size ("." +:+ n)).
    destruct (pop_segment (path n1 names) ("." +:+ n) Hbound) as [-> ->].
    assert (Str.size (path n1 names)
            <= Str.size (path n1 names +:+ "." +:+ n)) as Hle
      by (rewrite StrFacts.size_append; lia).
    destruct (match ph with
              | [] => (ub, [BackOfEmptyPaddingHistory])
              | top :: _ => (top, [])
              end) as [top f3].
    destruct (top <? currentPadding).
    + by exists bottom, names.
    + destruct (IH bottom ph) as (bottom' & names' & Hf & Hl & Hs);
        [lia | lia |].
      exists bottom', names'. cbn [rw_fullParamName rw_paramLengths].
      split; [done|]. split; [done|]. lia.
Qed.

Lemma rewindStack_path ub currentPadding (n1 : string) (names : list string)
    (bottom : bool) (ph : list nat) :
  length ph = length (lengths n1 bottom names) ->
  (Z.of_nat (Str.size (path n1 names)) < 2 ^ 64)%Z ->
  exists bottom' names',
    rw_fullParamName
      (rewindStack ub currentPadding ph (lengths n1 bottom names)
         (path n1 names))
    = path n1 names' /\
    rw_paramLengths
      (rewindStack ub currentPadding ph (lengths n1 bottom names)
         (path n1 names))
    = lengths n1 bottom' names' /\
    Str.size (path n1 names') <= Str.size (path n1 names).
Proof.
  intros Hlen Hbound. unfold rewindStack.
  destruct ph as [|top ph']; [by exists bottom, names|].
  destruct (currentPadding <=? top); [|by exists bottom, names].
  by apply rewind_path.
Qed.

(** The sum of the sizes of the lines. *)
Definition total_size (lines : list string) : nat :=
  foldr (fun line n => Str.size line + n) 0 lines.

Lemma total_size_app (l k : list string) :
  total_size (l ++ k) = total_size l + total_size k.
Proof.
  induction l as [|line l IH]; [done|].
  unfold total_size in *. cbn [app foldr]. rewrite IH. lia.
Qed.

(** The state after the first accepted line, and after every later
    line: the full name starts with the first name, and so do the
    keys. *)
Definition keeps_first_name (n1 : string) (st : parser_state) : Prop :=
  (exists bottom names,
     fullParamName st = path n1 names /\
     paramLengths st = lengths n1 bottom names) /\
  stacks_parallel st /\
  map_Forall (fun key _ => exists rest, key = n1 +:+ rest) (config st).

Lemma parseStep_keeps_first_name ub (n1 : string) (st : parser_state)
    (line : string) :
  n1 <> EmptyString ->
  (Z.of_nat (Str.size (fullParamName st)) < 2 ^ 64)%Z ->
  keeps_first_name n1 st ->
  keeps_first_name n1 (parseStep ub st line) /\
  Str.size (fullParamName (parseStep ub st line))
  <= Str.size (fullParamName st) + Str.size line.
Proof.
  intros Hn1 Hbound ((bottom & names & Hf & Hl) & Hpar & Hkeys).
  destruct (accepted_or_ignored line) as [Hacc|Hign].
  2:{ rewrite parseStep_ignored by done. cbn [fullParamName].
      split; [|lia]. split; [by exists bottom, names|]. by split. }
  pose proof (parseStep_parallel ub st line Hpar) as Hpar'.
  pose proof (accepted_name_size line Hacc) as Hsize.
  rewrite parseStep_accepted in * by done.
  cbn [fullParamName paramLengths config] in *.
  rewrite Hf, Hl in *.
  destruct (rewindStack_path ub (parseLine line).1.2 n1 names bottom
              (paddingHistory st)) as (bottom' & names' & Hf' & Hl' & Hle);
    [by rewrite <- Hl | done |].
  rewrite Hf', Hl' in Hpar' |- *.
  assert (Str.empty (path n1 names') = false) as Hempty.
  { pose proof (path_nonempty n1 names' Hn1). by destruct (path n1 names'). }
  rewrite Hempty in Hpar' |- *.
  change (path n1 names' +:+ "." +:+ (parseLine line).1.1.1)
    with (path n1 ((parseLine line).1.1.1 :: names')) in *.
  split.
  - split; [by exists bottom', ((parseLine line).1.1.1 :: names')|].
    split; [done|].
    unfold config_insert. destruct (config st !! _); [done|].
    apply map_Forall_insert_2; [apply path_prefix | done].
  - cbn [path]. rewrite !StrFacts.size_append.
    unfold Str.size in *. cbn [String.length]. lia.
Qed.

Lemma parseLines_keeps_first_name ub (n1 : string) (lines : list string) :
  n1 <> EmptyString ->
  forall i (st : parser_state),
    (Z.of_nat (Str.size (fullParamName st) + total_size lines) < 2 ^ 64)%Z ->
    keeps_first_name n1 st ->
    keeps_first_name n1 (parseLines ub i st lines).
Proof.
  intros Hn1. induction lines as [|line lines IH]; intros i st Hbound Hst;
    [done|].
  cbn [parseLines total_size foldr] in *.
  destruct (parseStep_keeps_first_name (ub i) n1 st line Hn1) as [Hst' Hle];
    [lia | done |].
  apply IH; [|done]. fold (total_size lines) in Hbound. lia.
Qed.

Lemma parseLines_all_ignored ub i (st : parser_state) (lines : list string) :
  Forall ignored lines -> core (parseLines ub i st lines) = core st.
Proof.
  intros Hall. revert i st.
  induction Hall as [|line lines Hign Hall IH]; intros i st; [done|].
  cbn [parseLines]. rewrite IH. by rewrite parseStep_ignored.
Qed.

(** Once a line has been accepted, its name stays at the front of the
    full name for the rest of the file: the frame of the first accepted
    line is recorded one character longer than what it appended, so
    that its pop removes nothing.  Every key of the dictionary starts
    with the name of the first accepted line. *)
Theorem keys_start_with_first_name (ub : nat -> nat)
    (before after : list string) (first : string) :
  Forall ignored before -> accepted first ->
  (Z.of_nat (total_size (before ++ first :: after)) < 2 ^ 64)%Z ->
  map_Forall
    (fun key _ => exists rest, key = (parseLine first).1.1.1 +:+ rest)
    (config (parseDocument ub (before ++ first :: after))).
Proof.
  intros Hign Hacc Hbound. unfold parseDocument.
  rewrite parseLines_app. cbn [parseLines].
  pose proof (parseLines_all_ignored ub 0 parser_init before Hign) as Hcore.
  set (st := parseLines ub 0 parser_init before) in *.
  unfold core in Hcore. cbn in Hcore.
  injection Hcore as Hc Hf Hl Hp Hfa.
  set (n1 := (parseLine first).1.1.1).
  assert (n1 <> EmptyString) as Hn1.
  { destruct Hacc as [Hname _]. unfold n1. by destruct ((parseLine first).1.1.1). }
  assert (total_size (before ++ first :: after)
          = total_size before + (Str.size first + total_size after)) as Htotal.
  { by rewrite total_size_app. }
  pose proof (accepted_name_size first Hacc) as Hsize. fold n1 in Hsize.
  eapply proj2, proj2, (parseLines_keeps_first_name ub n1 after Hn1).
  - rewrite parseStep_accepted by done. cbn [fullParamName].
    rewrite Hf, Hl, Hp. cbn [rewindStack rw_fullParamName Str.empty].
    fold n1. change (EmptyString +:+ n1) with n1. lia.
  - rewrite parseStep_accepted by done.
    rewrite Hc, Hf, Hl, Hp.
    cbn [rewindStack rw_fullParamName rw_paramLengths rw_paddingHistory
         Str.empty].
    fold n1. change (EmptyString +:+ n1) with n1.
    split; [by exists true, []|]. split; [done|].
    unfold config_insert. rewrite lookup_empty.
    apply map_Forall_insert_2; [|apply map_Forall_empty].
    exists EmptyString. by rewrite append_empty_r.
Qed.

End FullName.


(** ** Instances *)

(** The instances below are stated on the platform without floats. *)
#[local] Existing Instance platform_without_float.

(** The line [  key], without colon. *)
Lemma parseLine_invalid_witness :
  parseLine (platform := platform_without_float)
    (indent 2 0 +:+ String "k" "ey")
  = ((EmptyString, config_default), 2 + 0,
     warning 2 0 ++ [InvalidLine (indent 2 0 +:+ String "k" "ey")]).
Proof.
  apply (parseLine_invalid (platform := platform_without_float)
           2 0 "k" "ey").
  - discriminate.
  - discriminate.
  - discriminate.
  - right. reflexivity.
Defined.

(** The line [  key : TRUE]. *)
Lemma parseLine_format_witness :
  parseLine (platform := platform_without_float)
    (indent 2 0 +:+ String "k" "ey " +:+ String ":" " TRUE")
  = ((trimmTrailingSpaces (String "k" "ey "),
      (classify (trimmWhiteSpaces " TRUE")).1),
     2 + 0,
     warning 2 0 ++ (classify (trimmWhiteSpaces " TRUE")).2).
Proof.
  apply (parseLine_format (platform := platform_without_float)
           2 0 "k" "ey " " TRUE").
  - discriminate.
  - discriminate.
  - discriminate.
  - discriminate.
  - reflexivity.
Defined.

(** The token [maybe], to which no rule applies. *)
Lemma classify_scalar_witness :
  (classify (platform := platform_without_float) "maybe").2 = [] /\
  (type (classify (platform := platform_without_float) "maybe").1 = NO_VAL \/
   elements_count (classify (platform := platform_without_float) "maybe").1
   = 1).
Proof.
  apply (classify_scalar (platform := platform_without_float) "maybe").
  intros (Hfront & _). discriminate Hfront.
Defined.

(** The token [7.e99]: it has a '.', it is out of the range of a float,
    so that [std::stof] throws, and [std::stoi] reads 7. *)
Lemma classify_integer_after_stof_witness :
  contains "." "7.e99" /\
  stof (Platform := platform_without_float) "7.e99" = None /\
  exists x, stoi "7.e99" = Some x /\
            intVal (classify (platform := platform_without_float) "7.e99").1
            = [x].
Proof.
  apply (classify_integer_after_stof (platform := platform_without_float)
           "7.e99").
  - intros (Hfront & _). discriminate Hfront.
  - reflexivity.
Defined.

(** The token [[TRUE, FALSE]]. *)
Lemma classify_array_witness :
  classify (platform := platform_without_float)
    (String "[" (joinElements [(0, "TRUE"); (1, "FALSE")]
                 +:+ String "]" EmptyString))
  = (array_value
       (String "[" (joinElements [(0, "TRUE"); (1, "FALSE")]
                    +:+ String "]" EmptyString))
       BOOLEAN [SBoolean true; SBoolean false], []).
Proof.
  apply (classify_array (platform := platform_without_float) BOOLEAN
           [(0, "TRUE"); (1, "FALSE")] [SBoolean true; SBoolean false]).
  - repeat constructor; discriminate.
  - discriminate.
Defined.


(** The comment between [a: TRUE] and [  b: TRUE]. *)
Lemma ignored_line_removable_witness :
  core (parseDocument (platform := platform_without_float) (fun _ => 0)
          (["a: TRUE"] ++ "# comment" :: ["  b: TRUE"]))
  = core (parseDocument (platform := platform_without_float) (fun _ => 0)
            (["a: TRUE"] ++ ["  b: TRUE"])).
Proof.
  apply (ignored_line_removable (platform := platform_without_float)
           (fun _ => 0) ["a: TRUE"] ["  b: TRUE"] "# comment").
  reflexivity.
Defined.

(** The lines [a: TRUE] and [  b: TRUE]. *)
Lemma child_extends_parent_witness :
  fullParamName
    (state_before (platform := platform_without_float) (fun _ => 0)
       ["a: TRUE"; "  b: TRUE"] 2)
  = fullParamName
      (state_before (platform := platform_without_float) (fun _ => 0)
         ["a: TRUE"; "  b: TRUE"] 1)
    +:+ "." +:+ (parseLine (platform := platform_without_float)
                   "  b: TRUE").1.1.1.
Proof.
  apply (child_extends_parent (platform := platform_without_float)
           (fun _ => 0) ["a: TRUE"; "  b: TRUE"] 0 "a: TRUE" "  b: TRUE").
  - reflexivity.
  - reflexivity.
  - split; [reflexivity | discriminate].
  - split; [reflexivity | discriminate].
  - vm_compute. lia.
Defined.

(** The lines [a: TRUE], [  b: TRUE] and [  c: TRUE]. *)
Lemma sibling_replaces_last_segment_witness :
  fullParamName
    (state_before (platform := platform_without_float) (fun _ => 0)
       ["a: TRUE"; "  b: TRUE"; "  c: TRUE"] 3)
  = fullParamName
      (state_before (platform := platform_without_float) (fun _ => 0)
         ["a: TRUE"; "  b: TRUE"; "  c: TRUE"] 1)
    +:+ "." +:+ (parseLine (platform := platform_without_float)
                   "  c: TRUE").1.1.1.
Proof.
  apply (sibling_replaces_last_segment (platform := platform_without_float)
           (fun _ => 0) ["a: TRUE"; "  b: TRUE"; "  c: TRUE"] 0
           "a: TRUE" "  b: TRUE" "  c: TRUE").
  - reflexivity.
  - reflexivity.
  - reflexivity.
  - split; [reflexivity | discriminate].
  - split; [reflexivity | discriminate].
  - split; [reflexivity | discriminate].
  - vm_compute. lia.
  - vm_compute. lia.
  - vm_compute. reflexivity.
Defined.

(** The lines [# comment], [a: TRUE], [  b: TRUE] and [c: FALSE]: the
    keys are [a], [a.b] and [a.c]. *)
Lemma keys_start_with_first_name_witness :
  map_Forall
    (fun key _ =>
       exists rest,
         key = (parseLine (platform := platform_without_float)
                  "a: TRUE").1.1.1 +:+ rest)
    (config (parseDocument (platform := platform_without_float) (fun _ => 0)
               (["# comment"] ++ "a: TRUE" :: ["  b: TRUE"; "c: FALSE"]))).
Proof.
  apply (keys_start_with_first_name (platform := platform_without_float)
           (fun _ => 0) ["# comment"] ["  b: TRUE"; "c: FALSE"] "a: TRUE").
  - repeat constructor.
  - split; [reflexivity | discriminate].
  - vm_compute. reflexivity.
Defined.
